(** * apmgo: the event-rate tracking core of [apm.go]

    A shallow embedding of the ring buffer of timestamps ([RingBuffer],
    [NewRingBuffer], [Append], [GetAll]) and of the tracker built on it
    ([APMTracker], [onAction], [calculateCurrentAPM], [calculateAverageAPM],
    the bucket loop of [updateGraph], [updateGUI], [onClosing]).

    Conventions of the embedding:
    - Go's [int] and [int64] are [Z]; where the source does arithmetic on
      them the two's-complement wrap-around is written out ([wrap64]).
    - A slice is a [list]; every indexing goes through [slice_get] or
      [slice_set], which panic out of range as the Go runtime does.
    - A function that can panic returns an [outcome].
    - [float64] is the primitive binary64 float of the kernel, so that the
      conversions, [math.Max] and the division of the source are evaluated
      as the processor evaluates them.
    - [time.Now()] is an argument: the reading of the clock, in nanoseconds
      since the Unix epoch, as [UnixNano] returns it.  [time.Since] is the
      difference of two readings.
    - The locks are not modelled: every method body runs atomically.
    - The widgets, the windows and the drawing of the graph are left out;
      of [updateGraph] the bucket loop is kept, which is where it can
      panic. *)

From Stdlib Require Import ZArith Lia Floats Uint63.
From stdpp Require Import base tactics option list numbers sorting.

Local Open Scope Z_scope.

(** ** Runtime panics *)

Inductive panic : Set :=
| IndexOutOfRange
| DivideByZero
| MakeSliceLenOutOfRange.

Inductive outcome (A : Type) : Type :=
| Done (a : A)
| Panic (p : panic).

Arguments Done {A} a.
Arguments Panic {A} p.

Definition outcome_bind {A B : Type} (m : outcome A) (k : A -> outcome B)
  : outcome B :=
  match m with
  | Done a => k a
  | Panic p => Panic p
  end.

Notation "'let!' x ':=' m 'in' k" := (outcome_bind m (fun x => k))
  (at level 10, x name, m at level 100, k at level 200).

Definition is_done {A : Type} (m : outcome A) : Prop :=
  match m with Done _ => True | Panic _ => False end.

(** ** Machine integers *)

Definition wrap64 (z : Z) : Z := (z + 2 ^ 63) mod 2 ^ 64 - 2 ^ 63.

Definition int_min : Z := - 2 ^ 63.
Definition int_max : Z := 2 ^ 63 - 1.

Definition in_int (z : Z) : Prop := int_min <= z <= int_max.

(** Go's [%] on integers truncates towards zero and panics on a zero
    divisor. *)
Definition go_rem (a b : Z) : outcome Z :=
  if b =? 0 then Panic DivideByZero else Done (Z.rem a b).

(** ** Slices *)

Definition slice_len {A : Type} (s : list A) : Z := Z.of_nat (length s).

Definition slice_get {A : Type} (s : list A) (i : Z) : outcome A :=
  if (0 <=? i) && (i <? slice_len s) then
    match s !! Z.to_nat i with
    | Some x => Done x
    | None => Panic IndexOutOfRange
    end
  else Panic IndexOutOfRange.

Definition slice_set {A : Type} (s : list A) (i : Z) (x : A)
  : outcome (list A) :=
  if (0 <=? i) && (i <? slice_len s) then Done (<[Z.to_nat i := x]> s)
  else Panic IndexOutOfRange.

(** [make([]T, n)]: a zeroed slice of length [n].  The runtime's
    [makeslice] panics on a negative length and on a length whose byte size
    exceeds [maxAlloc] (2^48 on the 64-bit targets); [elem_size] is the size
    of [T] in bytes.  [Done] is what [make] returns in the runs in which
    the runtime obtains the memory; when it does not, the runtime aborts
    the process, and the program returns nothing.  Those runs are left out
    here and are made explicit by [make_slice_in] below. *)
Definition max_alloc : Z := 2 ^ 48.

Definition make_slice {A : Type} (elem_size : Z) (zero : A) (n : Z)
  : outcome (list A) :=
  if (n <? 0) || (max_alloc <? elem_size * n) then Panic MakeSliceLenOutOfRange
  else Done (replicate (Z.to_nat n) zero).

(** Sizes of [int64] and [int] in bytes. *)
Definition sizeof_int64 : Z := 8.
Definition sizeof_int : Z := 8.

(** The longest [[]int64] the runtime hands out. *)
Definition max_len : Z := 2 ^ 45.

(** ** RingBuffer *)

Record RingBuffer : Type := mkRingBuffer {
  data : list Z;
  size : Z;
  capacity : Z;
  head : Z
}.

Definition NewRingBuffer (cap : Z) : outcome RingBuffer :=
  let! d := make_slice sizeof_int64 0 cap in
  Done {| data := d; size := 0; capacity := cap; head := 0 |}.

Definition Append (value : Z) (rb : RingBuffer) : outcome RingBuffer :=
  if size rb <? capacity rb then
    let! d := slice_set (data rb) (size rb) value in
    Done {| data := d; size := wrap64 (size rb + 1);
            capacity := capacity rb; head := head rb |}
  else
    let! d := slice_set (data rb) (head rb) value in
    let! h := go_rem (wrap64 (head rb + 1)) (capacity rb) in
    Done {| data := d; size := size rb; capacity := capacity rb; head := h |}.

(** The loop of [GetAll]: [n] iterations remain, [i] is the loop counter. *)
Fixpoint GetAll_loop (rb : RingBuffer) (n : nat) (i : Z) (result : list Z)
  : outcome (list Z) :=
  match n with
  | O => Done result
  | S n' =>
      let! j := go_rem (wrap64 (head rb + i)) (capacity rb) in
      let! v := slice_get (data rb) j in
      let! result' := slice_set result i v in
      GetAll_loop rb n' (wrap64 (i + 1)) result'
  end.

Definition GetAll (rb : RingBuffer) : outcome (list Z) :=
  let! result := make_slice sizeof_int64 0 (size rb) in
  GetAll_loop rb (Z.to_nat (size rb)) 0 result.

(** A run of [Append] calls, oldest first. *)
Fixpoint appends (vs : list Z) (rb : RingBuffer) : outcome RingBuffer :=
  match vs with
  | [] => Done rb
  | v :: vs' => let! rb' := Append v rb in appends vs' rb'
  end.

Definition fresh_then_appends (cap : Z) (vs : list Z) : outcome RingBuffer :=
  let! rb := NewRingBuffer cap in appends vs rb.

Definition Snapshot_after (cap : Z) (vs : list Z) : outcome (list Z) :=
  let! rb := fresh_then_appends cap vs in GetAll rb.

(** ** Well-formed buffers and their logical contents *)

Record wf (rb : RingBuffer) : Prop := mk_wf {
  wf_capacity : 0 < capacity rb <= max_len;
  wf_data : slice_len (data rb) = capacity rb;
  wf_size : 0 <= size rb <= capacity rb;
  wf_head : 0 <= head rb < capacity rb;
  wf_head0 : size rb < capacity rb -> head rb = 0
}.

(** The timestamps a buffer holds, oldest first: the backing array read
    from [head] round the end, cut to [size]. *)
Definition contents (rb : RingBuffer) : list Z :=
  take (Z.to_nat (size rb))
       (drop (Z.to_nat (head rb)) (data rb) ++ take (Z.to_nat (head rb)) (data rb)).

(** The last [c] elements of a list. *)
Definition keep_last {A : Type} (c : nat) (l : list A) : list A :=
  drop (length l - c)%nat l.


(** ** float64 *)

(** [float64(n)] for an integer [n] above the least [int]: the nearest
    binary64 value.  (The program converts lengths, rates and minute
    counts only.) *)
Definition float64_of_int (z : Z) : float :=
  if z <? 0 then PrimFloat.opp (PrimFloat.of_uint63 (Uint63.of_Z (- z)))
  else PrimFloat.of_uint63 (Uint63.of_Z z).

(** [int(f)]: truncation towards zero.  Outside the range of [int], and on
    NaN, the conversion instruction of the 64-bit targets yields the least
    [int]. *)
Definition int_of_float64 (f : float) : Z :=
  match Prim2SF f with
  | S754_zero _ => 0
  | S754_finite s m e =>
      let v := if 0 <=? e then Z.pos m * 2 ^ e else Z.quot (Z.pos m) (2 ^ (- e)) in
      let v := if s then - v else v in
      if (int_min <=? v) && (v <=? int_max) then v else int_min
  | _ => int_min
  end.

(** [math.Max], with the special cases of the Go library. *)
Definition math_Max (x y : float) : float :=
  if (PrimFloat.eqb x infinity) || (PrimFloat.eqb y infinity) then infinity
  else if PrimFloat.is_nan x || PrimFloat.is_nan y then nan
  else if PrimFloat.eqb x zero && PrimFloat.eqb x y then
    (if PrimFloat.get_sign x then y else x)
  else if PrimFloat.ltb y x then x
  else y.

(** ** time *)

Definition millisecond : Z := 1000000.
Definition second : Z := 1000000000.
Definition minute : Z := 60000000000.

(** [t.UnixNano() / int64(time.Millisecond)] *)
Definition unix_millis (ns : Z) : Z := wrap64 (Z.quot ns millisecond).

(** [t.Sub(u)], which [time.Since] returns: the difference, saturated to
    the range of a [Duration]. *)
Definition time_sub (t u : Z) : Z := Z.max int_min (Z.min int_max (t - u)).

(** [d.Minutes()] of the time package:
    [float64(d / Minute) + float64(d % Minute) / (60 * 1e9)]. *)
Definition Minutes (d : Z) : float :=
  PrimFloat.add (float64_of_int (wrap64 (Z.quot d minute)))
                (PrimFloat.div (float64_of_int (Z.rem d minute))
                               (float64_of_int 60000000000)).

(** ** APMTracker *)

(** The fields the rate engine reads and writes; the widgets, the windows
    and the bindings are left out. *)
Record APMTracker : Type := mkAPMTracker {
  actions : RingBuffer;
  startTime : Z;
  peakAPM : Z;
  running : bool
}.

Definition NewAPMTracker (now : Z) : outcome APMTracker :=
  let! rb := NewRingBuffer 3600 in
  Done {| actions := rb; startTime := now; peakAPM := 0; running := true |}.

Definition onAction (now : Z) (a : APMTracker) : outcome APMTracker :=
  let! rb := Append (unix_millis now) (actions a) in
  Done {| actions := rb; startTime := startTime a;
          peakAPM := peakAPM a; running := running a |}.

(** The loop of [calculateCurrentAPM].  The Go index [i] runs from
    [len(actions) - 1] down to [0]; the argument [n] is [i + 1]. *)
Fixpoint current_loop (acts : list Z) (minuteAgo : Z) (n : nat) (count : Z)
  : outcome Z :=
  match n with
  | O => Done count
  | S i =>
      let! t := slice_get acts (Z.of_nat i) in
      if t <? minuteAgo then Done count
      else current_loop acts minuteAgo i (wrap64 (count + 1))
  end.

Definition calculateCurrentAPM (now : Z) (a : APMTracker) : outcome Z :=
  let minuteAgo := unix_millis (wrap64 (now - minute)) in
  let! acts := GetAll (actions a) in
  current_loop acts minuteAgo (length acts) 0.

Definition calculateAverageAPM (now : Z) (a : APMTracker) : outcome float :=
  let elapsedMinutes := Minutes (time_sub now (startTime a)) in
  let! acts := GetAll (actions a) in
  Done (PrimFloat.div (float64_of_int (slice_len acts)) elapsedMinutes).

(** The bucket loop of [updateGraph]. *)
Fixpoint bucket_loop (now : Z) (dat : list Z) (buckets : list Z)
  : outcome (list Z) :=
  match dat with
  | [] => Done buckets
  | t :: rest =>
      if wrap64 (now - t) <=? 60000 then
        let j := wrap64 (Z.quot (wrap64 (now - t)) 1000) in
        let! c := slice_get buckets j in
        let! buckets' := slice_set buckets j (wrap64 (c + 1)) in
        bucket_loop now rest buckets'
      else bucket_loop now rest buckets
  end.

(** The histogram that [updateGraph] draws; the drawing itself is left
    out ([image.RGBA.Set] ignores points outside the image). *)
Definition updateGraph (clock : Z) (a : APMTracker) : outcome (list Z) :=
  let now := unix_millis clock in
  let! dat := GetAll (actions a) in
  let! buckets := make_slice sizeof_int 0 60 in
  bucket_loop now dat buckets.

(** What one refresh shows. *)
Record display : Type := mkDisplay {
  shown_current : Z;
  shown_peak : Z;
  shown_avg : float;
  shown_buckets : list Z
}.

(** [updateGUI] reads the clock three times: in [calculateCurrentAPM], in
    [calculateAverageAPM] and in [updateGraph]. *)
Definition updateGUI (now1 now2 now3 : Z) (a : APMTracker)
  : outcome (APMTracker * option display) :=
  if negb (running a) then Done (a, None)
  else
    let! currentAPM := calculateCurrentAPM now1 a in
    let! avgAPM := calculateAverageAPM now2 a in
    let peak :=
      int_of_float64 (math_Max (float64_of_int (peakAPM a))
                               (float64_of_int currentAPM)) in
    let a' := {| actions := actions a; startTime := startTime a;
                 peakAPM := peak; running := running a |} in
    let! buckets := updateGraph now3 a' in
    Done (a', Some {| shown_current := currentAPM; shown_peak := peak;
                      shown_avg := avgAPM; shown_buckets := buckets |}).

Definition onClosing (a : APMTracker) : APMTracker :=
  {| actions := actions a; startTime := startTime a;
     peakAPM := peakAPM a; running := false |}.

(** ** Runs of a tracker *)

Inductive event : Type :=
| Action (now : Z)
| Refresh (now1 now2 now3 : Z)
| Closing.

Definition step (e : event) (a : APMTracker)
  : outcome (APMTracker * option display) :=
  match e with
  | Action now => let! a' := onAction now a in Done (a', None)
  | Refresh now1 now2 now3 => updateGUI now1 now2 now3 a
  | Closing => Done (onClosing a, None)
  end.

(** A run returns the final tracker and what the refreshes showed, in
    order. *)
Fixpoint run (es : list event) (a : APMTracker)
  : outcome (APMTracker * list display) :=
  match es with
  | [] => Done (a, [])
  | e :: es' =>
      let! r := step e a in
      let! r' := run es' (fst r) in
      Done (fst r', from_option (fun d => [d]) [] (snd r) ++ snd r')
  end.

(** The largest of a list of rates, 0 for none. *)
Definition max_rate (l : list Z) : Z := foldr Z.max 0 l.

(** ** Windows of time, as the specification counts them *)

Definition in_window (lo hi t : Z) : bool := (lo <=? t) && (t <=? hi).

(** The number of entries [t] of a snapshot with [lo <= t <= hi]. *)
Definition window_count (lo hi : Z) (l : list Z) : Z :=
  Z.of_nat (length (List.filter (in_window lo hi) l)).

(** The tracker after the events of a session, started at clock [start]. *)
Definition session (start : Z) (es : list event)
  : outcome (APMTracker * list display) :=
  let! a := NewAPMTracker start in run es a.

(** ** The rates a tracker can show, and their images in float64 *)

(** The buffer of a tracker holds 3600 timestamps, so a rate and a peak lie
    between 0 and 3600. *)
Definition rates : list Z := map Z.of_nat (seq 0 3601).

Definition float_table (zs : list Z) : list (Z * float) :=
  map (fun z => (z, float64_of_int z)) zs.

(** The conversion of a rate is a finite number that converts back to the
    rate, and is zero for rate 0 only. *)
Definition conv_check (p : Z * float) : bool :=
  negb (PrimFloat.eqb (snd p) infinity) && negb (PrimFloat.is_nan (snd p))
  && (int_of_float64 (snd p) =? fst p)
  && Bool.eqb (PrimFloat.eqb (snd p) zero) (fst p =? 0)
  && Bool.eqb (PrimFloat.eqb zero (snd p)) (fst p =? 0).

(** The conversions of two rates compare as the rates do. *)
Definition order_check (p q : Z * float) : bool :=
  Bool.eqb (PrimFloat.ltb (snd q) (snd p)) (fst q <? fst p).

Definition table_checked (tbl : list (Z * float)) : bool :=
  forallb conv_check tbl && forallb (fun p => forallb (order_check p) tbl) tbl.

(** What a tracker of a session satisfies. *)
Record tracker_ok (a : APMTracker) : Prop := mk_tracker_ok {
  ok_wf : wf (actions a);
  ok_capacity : capacity (actions a) = 3600;
  ok_peak : 0 <= peakAPM a <= 3600
}.

(** ** Event counts and short elapsed times, and their images in float64 *)

(** The sizes of a non-empty snapshot of a tracker: 1 to 3600. *)
Definition counts : list Z := map Z.of_nat (seq 1 3600).

(** The elapsed times of 1 ms to 999 ms, in nanoseconds. *)
Definition short_spans : list Z :=
  map (fun k => Z.of_nat k * millisecond) (seq 1 999).

(** The quotient is a finite number, at least 60, and not zero. *)
Definition avg_check (n m : float) : bool :=
  let r := PrimFloat.div n m in
  PrimFloat.is_finite r && PrimFloat.leb (float64_of_int 60) r
  && negb (PrimFloat.eqb r zero).

Definition avg_table_checked (ns ms : list float) : bool :=
  forallb (fun n => forallb (avg_check n) ms) ns.

(** ** The input loop *)

(** [inputLoop] ranges over the channel of the input hook.  An event of the
    channel is given by its [Kind] and by the reading of the clock at the
    moment [onAction] handles it.  [KeyDown] and [MouseDown] are the two
    constants of the hook library the loop compares with. *)
Fixpoint inputLoop (KeyDown MouseDown : Z) (evChan : list (Z * Z))
    (a : APMTracker) : outcome APMTracker :=
  match evChan with
  | [] => Done a
  | ev :: rest =>
      if (fst ev =? KeyDown) || (fst ev =? MouseDown) then
        let! a' := onAction (snd ev) a in
        inputLoop KeyDown MouseDown rest a'
      else inputLoop KeyDown MouseDown rest a
  end.

(** The timestamps the loop is expected to record: those of the key-down
    and mouse-down events, in order. *)
Definition recorded (KeyDown MouseDown : Z) (evChan : list (Z * Z)) : list Z :=
  map (fun ev => unix_millis (snd ev))
      (List.filter (fun ev => (fst ev =? KeyDown) || (fst ev =? MouseDown))
                   evChan).

(** ** Sessions and histograms, as a reader counts them *)

(** The clock readings of the actions of a run, in order. *)
Fixpoint action_clocks (es : list event) : list Z :=
  match es with
  | [] => []
  | Action now :: es' => now :: action_clocks es'
  | _ :: es' => action_clocks es'
  end.

(** The entries [updateGraph] can place: less than a second ahead of the
    clock up to less than a minute old, or more than a minute old (which it
    skips). *)
Definition bucket_safe (now t : Z) : bool :=
  let d := wrap64 (now - t) in
  ((-1000 <? d) && (d <? 60000)) || (60000 <? d).

(** The entries that fall in bucket [i]. *)
Definition in_bucket (now i t : Z) : bool :=
  let d := wrap64 (now - t) in
  (d <=? 60000) && (wrap64 (Z.quot d 1000) =? i).

Definition bucket_count (now i : Z) (l : list Z) : Z :=
  Z.of_nat (length (List.filter (in_bucket now i) l)).

Definition zsum (l : list Z) : Z := foldr Z.add 0 l.

(** A refresh, as opposed to an action or the closing. *)
Definition is_refresh (e : event) : bool :=
  match e with Refresh _ _ _ => true | _ => false end.

(** ** Allocation, with the answer of the runtime made explicit *)

(** What a call that allocates comes to: it returns, or [makeslice]
    panics, or the runtime does not obtain the memory and aborts the
    process with the fatal error "out of memory", which is no panic and
    cannot be recovered. *)
Inductive alloc (A : Type) : Type :=
| Allocated (a : A)
| AllocPanic (p : panic)
| OutOfMemory.

Arguments Allocated {A} a.
Arguments AllocPanic {A} p.
Arguments OutOfMemory {A}.

(** [make([]T, n)] once more.  [met] tells whether the runtime obtains the
    memory the call asks for.  The length is checked before any memory is
    asked for, and a slice of no bytes asks for none. *)
Definition make_slice_in {A : Type} (met : bool) (elem_size : Z) (zero : A)
    (n : Z) : alloc (list A) :=
  if (n <? 0) || (max_alloc <? elem_size * n) then
    AllocPanic MakeSliceLenOutOfRange
  else if (elem_size * n =? 0) || met then
    Allocated (replicate (Z.to_nat n) zero)
  else OutOfMemory.

(** [NewRingBuffer] once more: the backing array, then the struct, which
    lives on the heap. *)
Definition NewRingBuffer_in (met : bool) (cap : Z) : alloc RingBuffer :=
  match make_slice_in met sizeof_int64 0 cap with
  | Allocated d =>
      if met then
        Allocated {| data := d; size := 0; capacity := cap; head := 0 |}
      else OutOfMemory
  | AllocPanic p => AllocPanic p
  | OutOfMemory => OutOfMemory
  end.

(** ** The rates of a run, read off the buffer *)

(** The rates [calculateCurrentAPM] returns at the refreshes of a run: the
    actions go to the buffer, the closing clears [running], and a refresh
    of a running tracker reads the rate at its first reading of the
    clock.  Nothing here looks at what [updateGUI] shows or at the
    peak. *)
Fixpoint current_rates (es : list event) (a : APMTracker)
  : outcome (list Z) :=
  match es with
  | [] => Done []
  | Action now :: es' =>
      let! a' := onAction now a in current_rates es' a'
  | Refresh now1 _ _ :: es' =>
      if running a then
        let! c := calculateCurrentAPM now1 a in
        let! cs := current_rates es' a in
        Done (c :: cs)
      else current_rates es' a
  | Closing :: es' => current_rates es' (onClosing a)
  end.

(** * Properties *)

(** ** Arithmetic helpers *)


Lemma wrap64_id z : in_int z -> wrap64 z = z.
Proof.
  unfold in_int, int_min, int_max, wrap64. intros H.
  rewrite Z.mod_small by lia. lia.
Qed.

Lemma max_len_int : 0 < max_len /\ 2 * max_len + 1 <= 2 ^ 62.
Proof. split; [reflexivity|discriminate]. Qed.

Lemma max_alloc_len : max_alloc = 8 * max_len.
Proof. reflexivity. Qed.

Lemma wrap64_small z : - 2 ^ 62 <= z <= 2 ^ 62 -> wrap64 z = z.
Proof.
  intros H. apply wrap64_id. unfold in_int, int_min, int_max.
  change (2 ^ 63) with (2 * 2 ^ 62). lia.
Qed.

Lemma go_rem_nonneg a b :
  0 <= a -> 0 < b -> go_rem a b = Done (a mod b).
Proof.
  intros Ha Hb. unfold go_rem.
  destruct (b =? 0) eqn:E; [lia|].
  by rewrite Z.rem_mod_nonneg by lia.
Qed.

Lemma slice_get_lookup {A} (s : list A) i x :
  0 <= i -> s !! Z.to_nat i = Some x -> slice_get s i = Done x.
Proof.
  intros Hi Hx. unfold slice_get, slice_len.
  apply lookup_lt_Some in Hx as Hlt.
  destruct (0 <=? i) eqn:E1; [|lia].
  destruct (i <? Z.of_nat (length s)) eqn:E2; [|lia].
  simpl. by rewrite Hx.
Qed.

Lemma slice_set_insert {A} (s : list A) i x :
  0 <= i < slice_len s -> slice_set s i x = Done (<[Z.to_nat i := x]> s).
Proof.
  intros Hi. unfold slice_set.
  destruct (0 <=? i) eqn:E1; [|lia].
  destruct (i <? slice_len s) eqn:E2; [|lia].
  done.
Qed.

Lemma make_slice_ok {A} (sz : Z) (zero : A) n :
  0 <= n -> sz * n <= max_alloc ->
  make_slice sz zero n = Done (replicate (Z.to_nat n) zero).
Proof.
  intros Hn Hsz. unfold make_slice.
  destruct (n <? 0) eqn:E1; [lia|].
  destruct (max_alloc <? sz * n) eqn:E2; [lia|]. done.
Qed.

(** ** The ring buffer *)

Lemma contents_length rb :
  wf rb -> length (contents rb) = Z.to_nat (size rb).
Proof.
  intros [Hc Hd Hs Hh _]. unfold contents, slice_len in *.
  rewrite length_take, length_app, length_drop, length_take. lia.
Qed.

Lemma mod_wrap_round h i c :
  0 <= h < c -> 0 <= i <= c ->
  (h + i) mod c = if h + i <? c then h + i else h + i - c.
Proof.
  intros Hh Hi. destruct (h + i <? c) eqn:E.
  - apply Z.mod_small. lia.
  - symmetry. apply (Z.mod_unique_pos _ _ 1). lia. lia.
Qed.

(** Reading slot [(head + i) % capacity] yields the [i]-th oldest entry. *)
Lemma contents_lookup rb i :
  wf rb -> 0 <= i < size rb ->
  exists v, data rb !! Z.to_nat ((head rb + i) mod capacity rb) = Some v /\
            contents rb !! Z.to_nat i = Some v.
Proof.
  intros [Hc Hd Hs Hh Hh0] Hi. unfold contents, slice_len in *.
  rewrite mod_wrap_round by lia.
  assert (is_Some (data rb !!
            Z.to_nat (if head rb + i <? capacity rb then head rb + i
                      else head rb + i - capacity rb))) as [v Hv].
  { apply lookup_lt_is_Some. destruct (head rb + i <? capacity rb) eqn:E; lia. }
  exists v. split; [done|].
  rewrite lookup_take_lt by lia.
  destruct (head rb + i <? capacity rb) eqn:E.
  - rewrite lookup_app_l by (rewrite length_drop; lia).
    rewrite lookup_drop. rewrite <- Hv. f_equal. lia.
  - rewrite lookup_app_r by (rewrite length_drop; lia).
    rewrite length_drop. rewrite lookup_take_lt by lia.
    rewrite <- Hv. f_equal. lia.
Qed.

Lemma GetAll_loop_spec rb n i result :
  wf rb -> Z.of_nat n + i = size rb -> 0 <= i ->
  slice_len result = size rb ->
  GetAll_loop rb n i result
  = Done (take (Z.to_nat i) result ++ drop (Z.to_nat i) (contents rb)).
Proof.
  intros Hwf. revert i result.
  induction n as [|n IH]; intros i result Hn Hi Hlen; simpl.
  - rewrite drop_ge by (rewrite contents_length by done; lia).
    rewrite take_ge by (unfold slice_len in Hlen; lia).
    by rewrite app_nil_r.
  - pose proof Hwf as [Hc Hd Hs Hh Hh0].
    pose proof max_len_int as [_ Hmax].
    rewrite (wrap64_small (head rb + i)) by lia.
    rewrite go_rem_nonneg by lia. simpl.
    destruct (contents_lookup rb i Hwf) as (v & Hv & Hcv); [lia|].
    rewrite (slice_get_lookup _ _ v); [|apply Z.mod_pos_bound; lia|done].
    simpl. rewrite slice_set_insert by lia. simpl.
    rewrite (wrap64_small (i + 1)) by lia.
    rewrite IH; [|lia|lia|unfold slice_len in *; rewrite length_insert; lia].
    f_equal. replace (Z.to_nat (i + 1)) with (S (Z.to_nat i)) by lia.
    rewrite (drop_S _ v (Z.to_nat i)) by done.
    rewrite (take_S_r _ _ v).
    + rewrite take_insert_ge by lia. by rewrite <- app_assoc.
    + apply list_lookup_insert_eq. unfold slice_len in Hlen. lia.
Qed.

(** On a well-formed buffer [GetAll] does not panic and returns the
    logical contents. *)
Lemma GetAll_contents rb : wf rb -> GetAll rb = Done (contents rb).
Proof.
  intros Hwf. pose proof Hwf as [Hc Hd Hs Hh Hh0]. unfold GetAll.
  rewrite make_slice_ok;
    [|lia|unfold sizeof_int64; rewrite max_alloc_len; lia].
  simpl. rewrite GetAll_loop_spec; [done|done|lia|lia|].
  unfold slice_len. rewrite length_replicate. lia.
Qed.

Lemma NewRingBuffer_spec cap rb :
  0 < cap -> NewRingBuffer cap = Done rb ->
  wf rb /\ capacity rb = cap /\ size rb = 0 /\ head rb = 0 /\ contents rb = [].
Proof.
  unfold NewRingBuffer, make_slice, sizeof_int64. intros Hcap.
  rewrite max_alloc_len.
  destruct (cap <? 0) eqn:E1; [lia|]. simpl.
  destruct (8 * max_len <? 8 * cap) eqn:E2; [done|]. simpl.
  intros [= <-]. unfold contents. simpl.
  split_and!; try done.
  split; simpl; try lia.
  unfold slice_len. rewrite length_replicate. lia.
Qed.

Lemma NewRingBuffer_ok cap :
  0 <= cap <= max_len ->
  NewRingBuffer cap
  = Done {| data := replicate (Z.to_nat cap) 0; size := 0;
            capacity := cap; head := 0 |}.
Proof.
  intros H. unfold NewRingBuffer.
  rewrite make_slice_ok; [done|lia|].
  unfold sizeof_int64. rewrite max_alloc_len. lia.
Qed.

Lemma keep_last_all {A} c (l : list A) :
  (length l <= c)%nat -> keep_last c l = l.
Proof.
  intros H. unfold keep_last.
  replace (length l - c)%nat with 0%nat by lia. apply drop_0.
Qed.

Lemma keep_last_length {A} c (l : list A) :
  length (keep_last c l) = (length l `min` c)%nat.
Proof. unfold keep_last. rewrite length_drop. lia. Qed.

Lemma keep_last_app {A} c (l k : list A) :
  keep_last c (keep_last c l ++ k) = keep_last c (l ++ k).
Proof.
  unfold keep_last.
  rewrite <- (drop_app_le l k (length l - c)) by lia.
  rewrite drop_drop. f_equal.
  rewrite length_drop, !length_app. lia.
Qed.

Lemma contents_full rb :
  (length (data rb) <= Z.to_nat (size rb))%nat ->
  contents rb
  = drop (Z.to_nat (head rb)) (data rb) ++ take (Z.to_nat (head rb)) (data rb).
Proof.
  intros H. unfold contents. apply take_ge.
  rewrite length_app, length_drop, length_take. lia.
Qed.

(** [Append] on a well-formed buffer: no panic, the invariant is kept,
    and the contents gain the value and lose the oldest entry when full. *)
Lemma Append_spec v rb :
  wf rb ->
  exists rb',
    Append v rb = Done rb' /\ wf rb' /\ capacity rb' = capacity rb /\
    contents rb' = keep_last (Z.to_nat (capacity rb)) (contents rb ++ [v]).
Proof.
  intros Hwf. pose proof (contents_length rb Hwf) as Hlen.
  destruct Hwf as [Hc Hd Hs Hh Hh0].
  pose proof max_len_int as [_ Hmax].
  unfold Append. destruct (size rb <? capacity rb) eqn:E.
  - (* room left: write at [size] *)
    assert (head rb = 0) as H0 by (apply Hh0; lia).
    rewrite slice_set_insert by lia. simpl.
    rewrite wrap64_small by lia.
    eexists. split; [done|]. split_and!; [|done|].
    + split; simpl; try lia.
      unfold slice_len in *. rewrite length_insert. lia.
    + rewrite keep_last_all by (rewrite length_app; simpl; lia).
      unfold contents. simpl. rewrite H0. simpl.
      rewrite !drop_0, !app_nil_r.
      replace (Z.to_nat (size rb + 1)) with (S (Z.to_nat (size rb))) by lia.
      rewrite (take_S_r _ _ v).
      * by rewrite take_insert_ge by lia.
      * apply list_lookup_insert_eq. unfold slice_len in Hd. lia.
  - (* full: overwrite the slot at [head] *)
    assert (size rb = capacity rb) as Hfull by lia.
    rewrite slice_set_insert by lia. simpl.
    rewrite wrap64_small by lia.
    rewrite go_rem_nonneg by lia. simpl.
    eexists. split; [done|].
    assert (0 <= (head rb + 1) mod capacity rb < capacity rb) as Hm
      by (apply Z.mod_pos_bound; lia).
    split_and!; [|done|].
    + split; simpl; try lia.
      unfold slice_len in *. rewrite length_insert. lia.
    + unfold keep_last. rewrite length_app, Hlen. simpl.
      replace (Z.to_nat (size rb) + 1 - Z.to_nat (capacity rb))%nat
        with 1%nat by lia.
      unfold slice_len in Hd.
      rewrite !contents_full by (simpl; rewrite ?length_insert; lia). simpl.
      set (h := Z.to_nat (head rb)).
      assert (h < length (data rb))%nat as Hlt by lia.
      destruct (lookup_lt_is_Some_2 _ _ Hlt) as [x Hx].
      assert (exists l1 l2, data rb = l1 ++ x :: l2 /\ length l1 = h)
        as (l1 & l2 & Hsplit & Hl1).
      { exists (take h (data rb)), (drop (S h) (data rb)). split.
        - symmetry. by apply take_drop_middle.
        - rewrite length_take. lia. }
      rewrite Hsplit in *. rewrite length_app in Hd. simpl in Hd.
      rewrite insert_app_r_alt by lia.
      replace (h - length l1)%nat with 0%nat by lia. simpl.
      rewrite (drop_app_length' l1 (x :: l2)), (take_app_length' l1 (x :: l2))
        by done.
      rewrite mod_wrap_round by lia.
      destruct (head rb + 1 <? capacity rb) eqn:E1.
      * replace (Z.to_nat (head rb + 1)) with (S h) by lia.
        rewrite (cons_middle v), app_assoc.
        assert (length (l1 ++ [v]) = S h) as Hl
          by (rewrite length_app; simpl; lia).
        rewrite (drop_app_length' (l1 ++ [v]) l2), (take_app_length' (l1 ++ [v]) l2)
          by done.
        simpl. by rewrite <- !app_assoc.
      * replace (head rb + 1 - capacity rb) with 0 by lia.
        assert (l2 = []) as -> by (apply nil_length_inv; lia).
        simpl. by rewrite app_nil_r.
Qed.

Lemma appends_spec vs rb :
  wf rb ->
  exists rb',
    appends vs rb = Done rb' /\ wf rb' /\ capacity rb' = capacity rb /\
    contents rb' = keep_last (Z.to_nat (capacity rb)) (contents rb ++ vs).
Proof.
  revert rb. induction vs as [|v vs IH]; intros rb Hwf; simpl.
  - exists rb. split_and!; try done.
    rewrite app_nil_r, keep_last_all; [done|].
    rewrite contents_length by done. destruct Hwf. lia.
  - destruct (Append_spec v rb Hwf) as (rb1 & -> & Hwf1 & Hc1 & Hk1). simpl.
    destruct (IH rb1 Hwf1) as (rb' & -> & Hwf' & Hc' & Hk').
    exists rb'. split_and!; [done|done|congruence|].
    rewrite Hk', Hk1, Hc1, keep_last_app. by rewrite <- app_assoc.
Qed.

(** A fresh buffer after a run of appends: the snapshot is the last
    [capacity] values appended. *)
Lemma fresh_appends_spec cap rb0 vs :
  0 < cap -> NewRingBuffer cap = Done rb0 ->
  exists rb,
    appends vs rb0 = Done rb /\ wf rb /\ capacity rb = cap /\
    contents rb = keep_last (Z.to_nat cap) vs /\
    GetAll rb = Done (keep_last (Z.to_nat cap) vs).
Proof.
  intros Hcap Hnew.
  destruct (NewRingBuffer_spec cap rb0 Hcap Hnew) as (Hwf & Hc & _ & _ & He).
  destruct (appends_spec vs rb0 Hwf) as (rb & Hrun & Hwf' & Hc' & Hk).
  rewrite He, Hc in Hk. simpl in Hk.
  exists rb. split_and!; [done|done|congruence|done|].
  rewrite GetAll_contents by done. by rewrite Hk.
Qed.

Lemma Sorted_keep_last c (l : list Z) :
  Sorted Z.le l -> Sorted Z.le (keep_last c l).
Proof.
  intros H. apply StronglySorted_Sorted.
  apply (Sorted_StronglySorted Z.le) in H.
  unfold keep_last.
  rewrite <- (take_drop (length l - c) l) in H.
  by apply StronglySorted_app_1_r in H.
Qed.

(** C4.  A fresh buffer of capacity [cap > 0] that has seen [n] calls of
    [Append] gives a snapshot of length [min n cap]: the appends and
    [GetAll] do not panic, and the returned slice has that length. *)
Theorem snapshot_length_min cap rb0 vs :
  0 < cap -> NewRingBuffer cap = Done rb0 ->
  exists rb l,
    appends vs rb0 = Done rb /\ GetAll rb = Done l /\
    slice_len l = Z.min (slice_len vs) cap.
Proof.
  intros Hcap Hnew.
  destruct (fresh_appends_spec cap rb0 vs Hcap Hnew)
    as (rb & Hrun & _ & _ & _ & Hget).
  exists rb, (keep_last (Z.to_nat cap) vs). split_and!; [done|done|].
  unfold slice_len. rewrite keep_last_length. lia.
Qed.

Lemma snapshot_length_min_witness :
  0 < 2 /\
  NewRingBuffer 2
  = Done {| data := [0; 0]; size := 0; capacity := 2; head := 0 |} /\
  exists rb l,
    appends [10; 20; 30]
            {| data := [0; 0]; size := 0; capacity := 2; head := 0 |}
    = Done rb /\
    GetAll rb = Done l /\ slice_len l = Z.min (slice_len [10; 20; 30]) 2.
Proof.
  split; [lia|]. split; [reflexivity|].
  apply (snapshot_length_min 2); [lia | reflexivity].
Defined.

(** C5.  Once more than [cap] values have been appended to a fresh buffer
    the snapshot is the appended sequence without its oldest
    [n - cap] values, the rest in the order of appending; and the scenario
    of capacity 5 with appends 0, 1000, ..., 5000. *)
Theorem snapshot_keeps_newest :
  (forall cap rb0 vs,
     0 < cap -> NewRingBuffer cap = Done rb0 -> cap < slice_len vs ->
     exists rb l,
       appends vs rb0 = Done rb /\ GetAll rb = Done l /\
       l = drop (length vs - Z.to_nat cap) vs /\
       vs = take (length vs - Z.to_nat cap) vs ++ l /\
       slice_len l = cap) /\
  Snapshot_after 5 [0; 1000; 2000; 3000; 4000; 5000]
  = Done [1000; 2000; 3000; 4000; 5000].
Proof.
  split; [|vm_compute; reflexivity].
  intros cap rb0 vs Hcap Hnew Hlen.
  destruct (fresh_appends_spec cap rb0 vs Hcap Hnew)
    as (rb & Hrun & _ & _ & _ & Hget).
  exists rb, (keep_last (Z.to_nat cap) vs). unfold keep_last.
  split_and!; try done.
  - by rewrite take_drop.
  - unfold slice_len in *. rewrite length_drop. lia.
Qed.

Lemma snapshot_keeps_newest_witness :
  0 < 2 /\
  NewRingBuffer 2
  = Done {| data := [0; 0]; size := 0; capacity := 2; head := 0 |} /\
  2 < slice_len [10; 20; 30] /\
  exists rb l,
    appends [10; 20; 30]
            {| data := [0; 0]; size := 0; capacity := 2; head := 0 |}
    = Done rb /\
    GetAll rb = Done l /\
    l = drop (length [10; 20; 30] - Z.to_nat 2) [10; 20; 30] /\
    [10; 20; 30] = take (length [10; 20; 30] - Z.to_nat 2) [10; 20; 30] ++ l /\
    slice_len l = 2.
Proof.
  split; [lia|]. split; [reflexivity|]. split; [reflexivity|].
  apply (proj1 snapshot_keeps_newest 2); [lia | reflexivity | reflexivity].
Defined.

(** C9.  When the values appended to a fresh buffer are non-decreasing,
    the snapshot after any number of appends is non-decreasing and is the
    most recent [min n cap] of them, oldest first. *)
Theorem snapshot_nondecreasing cap rb0 vs :
  0 < cap -> NewRingBuffer cap = Done rb0 -> Sorted Z.le vs ->
  exists rb l,
    appends vs rb0 = Done rb /\ GetAll rb = Done l /\
    Sorted Z.le l /\
    l = drop (length vs - Z.to_nat cap) vs /\
    slice_len l = Z.min (slice_len vs) cap /\
    slice_len l = size rb.
Proof.
  intros Hcap Hnew Hsorted.
  destruct (fresh_appends_spec cap rb0 vs Hcap Hnew)
    as (rb & Hrun & Hwf & _ & Hk & Hget).
  exists rb, (keep_last (Z.to_nat cap) vs).
  split_and!; try done.
  - by apply Sorted_keep_last.
  - unfold slice_len. rewrite keep_last_length. lia.
  - rewrite <- Hk. unfold slice_len. rewrite contents_length by done.
    destruct Hwf. lia.
Qed.

Lemma snapshot_nondecreasing_witness :
  0 < 2 /\
  NewRingBuffer 2
  = Done {| data := [0; 0]; size := 0; capacity := 2; head := 0 |} /\
  Sorted Z.le [10; 20; 20] /\
  exists rb l,
    appends [10; 20; 20]
            {| data := [0; 0]; size := 0; capacity := 2; head := 0 |}
    = Done rb /\
    GetAll rb = Done l /\ Sorted Z.le l /\
    l = drop (length [10; 20; 20] - Z.to_nat 2) [10; 20; 20] /\
    slice_len l = Z.min (slice_len [10; 20; 20]) 2 /\
    slice_len l = size rb.
Proof.
  assert (Sorted Z.le [10; 20; 20]) as Hs
    by (repeat constructor; lia).
  split; [lia|]. split; [reflexivity|]. split; [exact Hs|].
  apply (snapshot_nondecreasing 2); [lia | reflexivity | exact Hs].
Defined.

(** C10.  Every run of appends on a buffer created with capacity
    [cap > 0] keeps [0 <= size <= capacity], [0 <= head < capacity] and
    [head = 0] while [size < capacity]; the backing array keeps its
    length; hence the slot [Append] writes and the slots [GetAll] reads
    are inside the backing array, and neither call panics. *)
Theorem appends_keep_invariant cap rb0 vs :
  0 < cap -> NewRingBuffer cap = Done rb0 ->
  exists rb,
    appends vs rb0 = Done rb /\
    capacity rb = cap /\ slice_len (data rb) = cap /\
    0 <= size rb <= capacity rb /\
    0 <= head rb < capacity rb /\
    (size rb < capacity rb -> head rb = 0) /\
    0 <= (if size rb <? capacity rb then size rb else head rb)
      < slice_len (data rb) /\
    (forall i, 0 <= i < size rb ->
       0 <= Z.rem (head rb + i) (capacity rb) < slice_len (data rb)) /\
    (forall v, is_done (Append v rb)) /\
    is_done (GetAll rb).
Proof.
  intros Hcap Hnew.
  destruct (fresh_appends_spec cap rb0 vs Hcap Hnew)
    as (rb & Hrun & Hwf & Hc & _ & Hget).
  pose proof Hwf as [Hc' Hd Hs Hh Hh0].
  exists rb. split_and!; try done; try lia;
    try (destruct (size rb <? capacity rb) eqn:E; lia).
  - intros i Hi. rewrite Z.rem_mod_nonneg by lia.
    rewrite Hd. apply Z.mod_pos_bound. lia.
  - intros v. by destruct (Append_spec v rb Hwf) as (rb' & -> & _).
  - by rewrite Hget.
Qed.

Lemma appends_keep_invariant_witness :
  0 < 2 /\
  NewRingBuffer 2
  = Done {| data := [0; 0]; size := 0; capacity := 2; head := 0 |} /\
  exists rb,
    appends [10; 20; 30]
            {| data := [0; 0]; size := 0; capacity := 2; head := 0 |}
    = Done rb /\
    capacity rb = 2 /\ slice_len (data rb) = 2 /\
    0 <= size rb <= capacity rb /\
    0 <= head rb < capacity rb /\
    (size rb < capacity rb -> head rb = 0) /\
    0 <= (if size rb <? capacity rb then size rb else head rb)
      < slice_len (data rb) /\
    (forall i, 0 <= i < size rb ->
       0 <= Z.rem (head rb + i) (capacity rb) < slice_len (data rb)) /\
    (forall v, is_done (Append v rb)) /\
    is_done (GetAll rb).
Proof.
  split; [lia|]. split; [reflexivity|].
  apply (appends_keep_invariant 2); [lia | reflexivity].
Defined.

(** ** Construction *)

Lemma Append_no_storage v :
  Append v {| data := []; size := 0; capacity := 0; head := 0 |}
  = Panic IndexOutOfRange.
Proof. reflexivity. Qed.

Lemma NewRingBuffer_negative cap :
  cap < 0 -> NewRingBuffer cap = Panic MakeSliceLenOutOfRange.
Proof.
  intros H. unfold NewRingBuffer, make_slice.
  destruct (cap <? 0) eqn:E; [done|lia].
Qed.

(** C6, as the claim states it, fails: capacity 0 is not positive, and the
    constructor returns a buffer. *)
Lemma NewRingBuffer_zero_capacity_succeeds :
  ~ (forall cap, cap <= 0 -> forall rb, NewRingBuffer cap <> Done rb).
Proof.
  intros H.
  apply (H 0 ltac:(lia)
           {| data := []; size := 0; capacity := 0; head := 0 |}).
  reflexivity.
Qed.

Lemma NewRingBuffer_in_returns met cap rb :
  NewRingBuffer_in met cap = Allocated rb -> NewRingBuffer cap = Done rb.
Proof.
  unfold NewRingBuffer_in, NewRingBuffer, make_slice_in, make_slice.
  destruct ((cap <? 0) || (max_alloc <? sizeof_int64 * cap)); [done|].
  destruct ((sizeof_int64 * cap =? 0) || met); [|done].
  destruct met; [|done]. by intros [= <-].
Qed.

(** C6, amended.  [NewRingBuffer] validates nothing and has no error
    value.  A negative capacity, like one beyond the limit of [make],
    makes [make] panic, and no buffer is produced whatever the memory.
    Capacity 0 is accepted: the call returns a buffer without storage, on
    which every [Append] panics.  For a capacity from 0 up to the limit of
    [make] the call never panics and has one result only: when the
    runtime obtains the memory it returns the empty buffer of that
    capacity, well formed when the capacity is positive; when it does
    not, the runtime aborts the process. *)
Theorem NewRingBuffer_capacity cap :
  (cap < 0 -> NewRingBuffer cap = Panic MakeSliceLenOutOfRange) /\
  (cap = 0 ->
   NewRingBuffer cap
   = Done {| data := []; size := 0; capacity := 0; head := 0 |} /\
   forall v,
     Append v {| data := []; size := 0; capacity := 0; head := 0 |}
     = Panic IndexOutOfRange) /\
  (cap < 0 \/ max_len < cap ->
   NewRingBuffer_in true cap = AllocPanic MakeSliceLenOutOfRange /\
   forall met rb, NewRingBuffer_in met cap <> Allocated rb) /\
  (0 <= cap <= max_len ->
   NewRingBuffer_in false cap = OutOfMemory /\
   exists rb,
     NewRingBuffer_in true cap = Allocated rb /\
     NewRingBuffer cap = Done rb /\
     capacity rb = cap /\ size rb = 0 /\ head rb = 0 /\
     slice_len (data rb) = cap /\ GetAll rb = Done [] /\
     (0 < cap -> wf rb) /\
     (cap = 0 -> forall v, Append v rb = Panic IndexOutOfRange)) /\
  (forall met rb,
     NewRingBuffer_in met cap = Allocated rb -> NewRingBuffer cap = Done rb).
Proof.
  split_and!.
  - apply NewRingBuffer_negative.
  - intros ->. split; [reflexivity|]. apply Append_no_storage.
  - intros Hcap.
    assert (((cap <? 0) || (max_alloc <? sizeof_int64 * cap)) = true) as Hbad.
    { unfold sizeof_int64. rewrite max_alloc_len.
      destruct Hcap; destruct (cap <? 0) eqn:E; simpl; lia. }
    unfold NewRingBuffer_in, make_slice_in. rewrite Hbad.
    split; [done|]. by intros met rb.
  - intros Hcap.
    assert (((cap <? 0) || (max_alloc <? sizeof_int64 * cap)) = false) as Hgood.
    { unfold sizeof_int64. rewrite max_alloc_len.
      destruct (cap <? 0) eqn:E; simpl; lia. }
    unfold NewRingBuffer_in, make_slice_in. rewrite Hgood.
    split.
    { rewrite orb_false_r. by destruct (sizeof_int64 * cap =? 0). }
    rewrite orb_true_r. eexists. split; [done|].
    pose proof (NewRingBuffer_ok cap Hcap) as Hnew.
    split; [exact Hnew|]. simpl. split_and!; try done.
    + unfold slice_len. rewrite length_replicate. lia.
    + intros Hpos.
      by destruct (NewRingBuffer_spec cap _ Hpos Hnew) as (Hwf & _).
    + intros -> v. reflexivity.
  - intros met rb. apply NewRingBuffer_in_returns.
Qed.

Lemma NewRingBuffer_capacity_witness :
  (-1 < 0 /\ NewRingBuffer (-1) = Panic MakeSliceLenOutOfRange) /\
  (0 = 0 /\
   NewRingBuffer 0
   = Done {| data := []; size := 0; capacity := 0; head := 0 |}) /\
  ((-1 < 0 \/ max_len < -1) /\
   NewRingBuffer_in true (-1) = AllocPanic MakeSliceLenOutOfRange) /\
  (0 <= 3 <= max_len /\
   NewRingBuffer_in false 3 = OutOfMemory /\
   exists rb,
     NewRingBuffer_in true 3 = Allocated rb /\
     NewRingBuffer 3 = Done rb /\
     capacity rb = 3 /\ size rb = 0 /\ head rb = 0 /\
     slice_len (data rb) = 3 /\ GetAll rb = Done [] /\
     (0 < 3 -> wf rb) /\
     (3 = 0 -> forall v, Append v rb = Panic IndexOutOfRange)).
Proof.
  assert (0 <= 3 <= max_len) as H3 by (unfold max_len; lia).
  split; [split; [lia|]|].
  { apply (proj1 (NewRingBuffer_capacity (-1))). lia. }
  split; [split; [reflexivity|]|].
  { apply (proj1 (proj1 (proj2 (NewRingBuffer_capacity 0)) eq_refl)). }
  split; [split; [left; lia|]|].
  { apply (proj1 (proj2 (proj2 (NewRingBuffer_capacity (-1))))). left. lia. }
  split; [exact H3|].
  exact (proj1 (proj2 (proj2 (proj2 (NewRingBuffer_capacity 3)))) H3).
Defined.

(** ** The current rate *)

Lemma slice_set_length {A} (s : list A) i x s' :
  slice_set s i x = Done s' -> length s' = length s.
Proof.
  unfold slice_set.
  destruct ((0 <=? i) && (i <? slice_len s)); [|done].
  intros [= <-]. apply length_insert.
Qed.

Lemma GetAll_loop_length rb n i result l :
  GetAll_loop rb n i result = Done l -> length l = length result.
Proof.
  revert i result. induction n as [|n IH]; intros i result; simpl.
  - by intros [= <-].
  - destruct (go_rem _ _) as [j|]; simpl; [|done].
    destruct (slice_get _ _) as [v|]; simpl; [|done].
    destruct (slice_set _ _ _) as [r|] eqn:Hset; simpl; [|done].
    intros H%IH. apply slice_set_length in Hset. congruence.
Qed.

(** Whatever the buffer, a snapshot that [GetAll] returns has [size]
    entries, and no more than a slice can hold. *)
Lemma GetAll_length rb l :
  GetAll rb = Done l -> slice_len l = size rb /\ 0 <= size rb <= max_len.
Proof.
  unfold GetAll, make_slice, sizeof_int64. rewrite max_alloc_len.
  destruct (size rb <? 0) eqn:E1; [done|]. simpl.
  destruct (8 * max_len <? 8 * size rb) eqn:E2; [done|]. simpl.
  intros H%GetAll_loop_length. rewrite length_replicate in H.
  unfold slice_len. lia.
Qed.

Lemma filter_none {A} (f : A -> bool) (l : list A) :
  (forall x, x ∈ l -> f x = false) -> List.filter f l = [].
Proof.
  induction l as [|y l IH]; intros H; simpl; [done|].
  rewrite (H y) by apply list_elem_of_here.
  apply IH. intros x Hx. apply H. by apply list_elem_of_further.
Qed.

(** The backward scan on a non-decreasing snapshot counts the entries not
    older than the cutoff among the first [n]. *)
Lemma current_loop_spec l m n count :
  StronglySorted Z.le l -> (n <= length l)%nat ->
  0 <= count -> count + Z.of_nat n <= 2 ^ 62 ->
  current_loop l m n count
  = Done (count + Z.of_nat (length (List.filter (Z.leb m) (take n l)))).
Proof.
  intros Hsorted. revert count.
  induction n as [|i IH]; intros count Hn Hc Hb; simpl.
  - f_equal. lia.
  - assert (i < length l)%nat as Hlt by lia.
    destruct (lookup_lt_is_Some_2 _ _ Hlt) as [t Ht].
    rewrite (slice_get_lookup _ _ t); [|lia|by rewrite Nat2Z.id]. simpl.
    rewrite (take_S_r _ _ t) by done.
    rewrite List.filter_app, length_app. simpl.
    destruct (t <? m) eqn:E.
    + replace (m <=? t) with false by lia. simpl.
      rewrite filter_none; [f_equal; simpl; lia|].
      intros x Hx. rewrite <- (take_drop_middle _ _ _ Ht) in Hsorted.
      assert (x <= t)
        by (eapply (StronglySorted_app_1_elem_of Z.le);
            [done|done|apply list_elem_of_here]).
      lia.
    + replace (m <=? t) with true by lia. simpl.
      rewrite wrap64_small by lia.
      rewrite IH by lia. f_equal. lia.
Qed.

Lemma unix_millis_nonneg now :
  0 <= now <= int_max -> unix_millis now = now / millisecond.
Proof.
  unfold unix_millis, int_max, millisecond. intros H.
  rewrite Z.quot_div_nonneg by lia.
  apply wrap64_id. unfold in_int, int_min, int_max.
  assert (0 <= now / 1000000 <= now); [|lia].
  split; [apply Z.div_pos; lia|apply Z.div_le_upper_bound; lia].
Qed.

Lemma minute_ago now :
  minute <= now <= int_max ->
  unix_millis (wrap64 (now - minute)) = unix_millis now - 60000.
Proof.
  unfold minute. intros H.
  assert (int_max = 2 ^ 63 - 1) as Hm by reflexivity.
  rewrite wrap64_id by (unfold in_int, int_min; lia).
  rewrite !unix_millis_nonneg by lia. unfold millisecond.
  replace (now - 60000000000) with (now + (- 60000) * 1000000) by lia.
  rewrite Z.div_add by lia. lia.
Qed.

(** C3.  On a snapshot in non-decreasing order, read at a clock [now] not
    earlier than any entry, [calculateCurrentAPM] returns the number of
    entries [t] with [now_ms - 60000 <= t <= now_ms], the lower end
    included; the clock is at least one minute past the epoch.  And the
    scenario: one event per second from 0 to 59000 ms, read at 60000 ms,
    gives 60. *)
Theorem current_rate_counts_window :
  (forall now a l,
     minute <= now <= int_max ->
     GetAll (actions a) = Done l ->
     Sorted Z.le l ->
     Forall (fun t => t <= unix_millis now) l ->
     calculateCurrentAPM now a
     = Done (window_count (unix_millis now - 60000) (unix_millis now) l)) /\
  (let! r := session 0 (map (fun i => Action (Z.of_nat i * second)) (seq 0 60)) in
   calculateCurrentAPM (60000 * millisecond) (fst r)) = Done 60.
Proof.
  split; [|vm_compute; reflexivity].
  intros now a l Hnow Hget Hsorted Hle.
  unfold calculateCurrentAPM. rewrite Hget. simpl.
  rewrite minute_ago by done.
  apply GetAll_length in Hget as [Hlen Hsize].
  pose proof max_len_int as [_ Hmax].
  rewrite current_loop_spec;
    [|by apply (Sorted_StronglySorted Z.le)|done|done
     |unfold slice_len in Hlen; lia].
  rewrite take_ge by done. unfold window_count.
  f_equal. rewrite Z.add_0_l. do 2 f_equal.
  apply List.filter_ext_in. intros t Ht.
  apply list_elem_of_In in Ht. rewrite Forall_forall in Hle.
  specialize (Hle t Ht). simpl in Hle. unfold in_window. lia.
Qed.

Lemma current_rate_counts_window_witness :
  let a := {| actions := {| data := [0; 1000]; size := 2;
                            capacity := 2; head := 0 |};
              startTime := 0; peakAPM := 0; running := true |} in
  let now := 60000000000 in
  (minute <= now <= int_max) /\
  GetAll (actions a) = Done [0; 1000] /\
  Sorted Z.le [0; 1000] /\
  Forall (fun t => t <= unix_millis now) [0; 1000] /\
  calculateCurrentAPM now a
  = Done (window_count (unix_millis now - 60000) (unix_millis now) [0; 1000]).
Proof.
  intros a now.
  assert (minute <= now <= int_max) as H1
    by (split; intro; discriminate).
  assert (GetAll (actions a) = Done [0; 1000]) as H2 by reflexivity.
  assert (Sorted Z.le [0; 1000]) as H3 by (repeat constructor; lia).
  assert (Forall (fun t => t <= unix_millis now) [0; 1000]) as H4
    by (repeat constructor; intro; discriminate).
  split; [exact H1|]. split; [exact H2|].
  split; [exact H3|]. split; [exact H4|].
  exact (proj1 current_rate_counts_window now a [0; 1000] H1 H2 H3 H4).
Defined.

(** ** The histogram *)

(** An entry exactly [60000] ms old passes the guard of [updateGraph] and
    indexes bucket 60 of 60. *)
Lemma bucket_loop_boundary now t rest buckets :
  slice_len buckets = 60 -> wrap64 (now - t) = 60000 ->
  bucket_loop now (t :: rest) buckets = Panic IndexOutOfRange.
Proof.
  intros Hlen Hd. simpl. rewrite Hd. simpl.
  unfold slice_get. rewrite Hlen. reflexivity.
Qed.

(** A younger entry, not in the future, is counted in a bucket inside the
    array. *)
Lemma bucket_loop_in_window now t rest buckets :
  slice_len buckets = 60 -> 0 <= wrap64 (now - t) < 60000 ->
  exists buckets',
    slice_len buckets' = 60 /\
    bucket_loop now (t :: rest) buckets = bucket_loop now rest buckets'.
Proof.
  intros Hlen Hd. simpl.
  destruct (wrap64 (now - t) <=? 60000) eqn:E; [|lia].
  set (d := wrap64 (now - t)) in *.
  assert (0 <= Z.quot d 1000 < 60) as Hq.
  { rewrite Z.quot_div_nonneg by lia. split.
    - apply Z.div_pos; lia.
    - apply Z.div_lt_upper_bound; lia. }
  rewrite (wrap64_small (Z.quot d 1000)) by lia.
  assert (Z.to_nat (Z.quot d 1000) < length buckets)%nat as Hlt
    by (unfold slice_len in Hlen; lia).
  destruct (lookup_lt_is_Some_2 _ _ Hlt) as [c Hc].
  rewrite (slice_get_lookup _ _ c) by (done || lia). simpl.
  rewrite slice_set_insert by lia. simpl.
  eexists. split; [|done].
  unfold slice_len in *. rewrite length_insert. done.
Qed.

(** C2.  The claim holds of the specification's histogram, not of
    [updateGraph]: with one event at 0 ms and the clock at 60000 ms the
    guard [now - t <= 60000] lets the entry through and the write to
    [buckets[60]] panics. *)
Theorem updateGraph_panics_at_window_boundary :
  (let! r := session 0 [Action 0] in
   updateGraph (60000 * millisecond) (fst r)) = Panic IndexOutOfRange.
Proof. vm_compute. reflexivity. Qed.

(** ** Closing *)

Lemma onAction_spec now a :
  wf (actions a) ->
  exists a',
    onAction now a = Done a' /\ wf (actions a') /\
    capacity (actions a') = capacity (actions a) /\
    contents (actions a')
    = keep_last (Z.to_nat (capacity (actions a)))
                (contents (actions a) ++ [unix_millis now]) /\
    startTime a' = startTime a /\ peakAPM a' = peakAPM a /\
    running a' = running a.
Proof.
  intros Hwf. unfold onAction.
  destruct (Append_spec (unix_millis now) _ Hwf) as (rb & -> & Hwf' & Hc & Hk).
  simpl. eexists. split; [done|]. simpl. by split_and!.
Qed.

(** C8, as the claim states it, fails: after [onClosing] an action still
    changes the snapshot. *)
Lemma onAction_after_closing_appends :
  ~ (forall start es now r a',
       session start (es ++ [Closing]) = Done r ->
       onAction now (fst r) = Done a' ->
       GetAll (actions a') = GetAll (actions (fst r))).
Proof.
  intros H.
  destruct (session 0 ([] ++ [Closing])) as [r|] eqn:E;
    [|vm_compute in E; discriminate].
  destruct (onAction 5000000 (fst r)) as [a'|] eqn:E';
    [|vm_compute in E; injection E as <-; vm_compute in E'; discriminate].
  specialize (H 0 [] 5000000 r a' E E').
  vm_compute in E. injection E as <-.
  vm_compute in E'. injection E' as <-.
  vm_compute in H. discriminate.
Qed.

(** C8, amended.  [onClosing] clears [running], and [running] gates
    [updateGUI] only.  After it [onAction] records as before: the snapshot
    gains the timestamp (and loses the oldest entry when the buffer is
    full), the other fields are untouched; [updateGUI] returns at once,
    without computing or showing anything; [GetAll] still answers. *)
Theorem onAction_ignores_running now a :
  wf (actions a) ->
  exists a',
    onAction now (onClosing a) = Done a' /\
    running a' = false /\
    GetAll (actions a')
    = Done (keep_last (Z.to_nat (capacity (actions a)))
                      (contents (actions a) ++ [unix_millis now])) /\
    GetAll (actions (onClosing a)) = Done (contents (actions a)) /\
    peakAPM a' = peakAPM a /\ startTime a' = startTime a /\
    (forall now1 now2 now3,
       updateGUI now1 now2 now3 (onClosing a) = Done (onClosing a, None)) /\
    (forall now1 now2 now3, updateGUI now1 now2 now3 a' = Done (a', None)).
Proof.
  intros Hwf.
  destruct (onAction_spec now (onClosing a) Hwf)
    as (a' & Hact & Hwf' & Hc & Hk & Hst & Hpk & Hrun).
  exists a'. simpl in *. split_and!; try done.
  - rewrite GetAll_contents by done. by rewrite Hk.
  - by apply GetAll_contents.
  - intros. unfold updateGUI. by rewrite Hrun.
Qed.

Lemma onAction_ignores_running_witness :
  let a := {| actions := {| data := [10; 20]; size := 2;
                            capacity := 2; head := 0 |};
              startTime := 0; peakAPM := 2; running := true |} in
  wf (actions a) /\
  exists a',
    onAction 30000000 (onClosing a) = Done a' /\
    running a' = false /\
    GetAll (actions a')
    = Done (keep_last (Z.to_nat (capacity (actions a)))
                      (contents (actions a) ++ [unix_millis 30000000])) /\
    GetAll (actions (onClosing a)) = Done (contents (actions a)) /\
    peakAPM a' = peakAPM a /\ startTime a' = startTime a /\
    (forall now1 now2 now3,
       updateGUI now1 now2 now3 (onClosing a) = Done (onClosing a, None)) /\
    (forall now1 now2 now3, updateGUI now1 now2 now3 a' = Done (a', None)).
Proof.
  intros a.
  assert (wf (actions a)) as Hwf.
  { split; simpl; try lia.
    - split; [reflexivity | discriminate].
    - reflexivity. }
  split; [exact Hwf|].
  exact (onAction_ignores_running 30000000 a Hwf).
Defined.

(** ** The peak *)

Lemma rates_table_checked : table_checked (float_table rates) = true.
Proof. vm_cast_no_check (eq_refl true). Qed.

Lemma in_rates_table a :
  0 <= a <= 3600 -> In (a, float64_of_int a) (float_table rates).
Proof.
  intros Ha. unfold float_table, rates.
  apply List.in_map_iff. exists a. split; [done|].
  apply List.in_map_iff. exists (Z.to_nat a). split; [lia|].
  apply List.in_seq. lia.
Qed.

Lemma conv_check_spec a x :
  conv_check (a, x) = true ->
  PrimFloat.eqb x infinity = false /\
  PrimFloat.is_nan x = false /\
  int_of_float64 x = a /\
  PrimFloat.eqb x zero = (a =? 0) /\
  PrimFloat.eqb zero x = (a =? 0).
Proof.
  unfold conv_check, fst, snd. intros H.
  repeat (apply andb_prop in H as [H ?]).
  split_and!.
  - by apply negb_true_iff.
  - by apply negb_true_iff.
  - lia.
  - by apply Bool.eqb_prop.
  - by apply Bool.eqb_prop.
Qed.

Lemma table_checked_conv tbl p :
  table_checked tbl = true -> In p tbl -> conv_check p = true.
Proof.
  unfold table_checked. intros [H _]%andb_prop Hp.
  rewrite List.forallb_forall in H. by apply H.
Qed.

Lemma table_checked_order tbl p q :
  table_checked tbl = true -> In p tbl -> In q tbl -> order_check p q = true.
Proof.
  unfold table_checked. intros [_ H]%andb_prop Hp Hq.
  rewrite List.forallb_forall in H. specialize (H p Hp).
  rewrite List.forallb_forall in H. by apply H.
Qed.

Lemma rate_conv a :
  0 <= a <= 3600 ->
  PrimFloat.eqb (float64_of_int a) infinity = false /\
  PrimFloat.is_nan (float64_of_int a) = false /\
  int_of_float64 (float64_of_int a) = a /\
  PrimFloat.eqb (float64_of_int a) zero = (a =? 0) /\
  PrimFloat.eqb zero (float64_of_int a) = (a =? 0).
Proof.
  intros Ha. apply conv_check_spec.
  exact (table_checked_conv _ _ rates_table_checked (in_rates_table a Ha)).
Qed.

Lemma rate_order a b :
  0 <= a <= 3600 -> 0 <= b <= 3600 ->
  PrimFloat.ltb (float64_of_int b) (float64_of_int a) = (b <? a).
Proof.
  intros Ha Hb. apply Bool.eqb_prop.
  exact (table_checked_order _ _ _ rates_table_checked
           (in_rates_table a Ha) (in_rates_table b Hb)).
Qed.

(** The peak update of [updateGUI],
    [int(math.Max(float64(peak), float64(current)))], is the integer
    maximum on the rates a tracker can show. *)
Lemma peak_update_max a b :
  0 <= a <= 3600 -> 0 <= b <= 3600 ->
  int_of_float64 (math_Max (float64_of_int a) (float64_of_int b)) = Z.max a b.
Proof.
  intros Ha Hb.
  destruct (rate_conv a Ha) as (Hia & Hna & Hca & Hza & _).
  destruct (rate_conv b Hb) as (Hib & Hnb & Hcb & _ & Hzb).
  unfold math_Max. rewrite Hia, Hib, Hna, Hnb. simpl.
  destruct (PrimFloat.eqb (float64_of_int a) zero
            && PrimFloat.eqb (float64_of_int a) (float64_of_int b)) eqn:E.
  - apply andb_prop in E as [E1 E2].
    rewrite Hza in E1. assert (a = 0) as -> by lia.
    change (float64_of_int 0) with zero in E2.
    rewrite Hzb in E2. assert (b = 0) as -> by lia.
    vm_compute. reflexivity.
  - rewrite rate_order by done.
    destruct (b <? a) eqn:E'; [rewrite Hca | rewrite Hcb]; lia.
Qed.

Lemma current_loop_bounds l m n count :
  (n <= length l)%nat -> 0 <= count -> count + Z.of_nat n <= 2 ^ 62 ->
  exists r, current_loop l m n count = Done r /\
            count <= r <= count + Z.of_nat n.
Proof.
  revert count. induction n as [|i IH]; intros count Hn Hc Hb; simpl.
  - exists count. split; [done|lia].
  - assert (i < length l)%nat as Hlt by lia.
    destruct (lookup_lt_is_Some_2 _ _ Hlt) as [t Ht].
    rewrite (slice_get_lookup _ _ t); [|lia|by rewrite Nat2Z.id]. simpl.
    destruct (t <? m).
    + exists count. split; [done|lia].
    + rewrite wrap64_small by lia.
      destruct (IH (count + 1)) as (r & -> & Hr); [lia..|].
      exists r. split; [done|lia].
Qed.

(** On a well-formed buffer the current rate is computed without panic
    and lies between 0 and the size of the buffer. *)
Lemma calculateCurrentAPM_bounds now a :
  wf (actions a) ->
  exists r, calculateCurrentAPM now a = Done r /\ 0 <= r <= size (actions a).
Proof.
  intros Hwf. unfold calculateCurrentAPM.
  rewrite GetAll_contents by done. simpl.
  pose proof (contents_length _ Hwf) as Hlen.
  pose proof Hwf as [Hc Hd Hs Hh Hh0].
  pose proof max_len_int as [_ Hmax].
  destruct (current_loop_bounds (contents (actions a))
              (unix_millis (wrap64 (now - minute)))
              (length (contents (actions a))) 0) as (r & -> & Hr);
    [lia..|].
  exists r. split; [done|lia].
Qed.

Lemma calculateAverageAPM_done now a :
  wf (actions a) ->
  calculateAverageAPM now a
  = Done (PrimFloat.div (float64_of_int (size (actions a)))
                        (Minutes (time_sub now (startTime a)))).
Proof.
  intros Hwf. unfold calculateAverageAPM.
  rewrite GetAll_contents by done. simpl.
  unfold slice_len. rewrite contents_length by done.
  destruct Hwf. do 3 f_equal. lia.
Qed.

Lemma NewAPMTracker_spec now :
  exists a, NewAPMTracker now = Done a /\ tracker_ok a /\
            peakAPM a = 0 /\ running a = true /\ startTime a = now /\
            contents (actions a) = [].
Proof.
  assert (0 <= 3600 <= max_len) as Hcap by (unfold max_len; lia).
  pose proof (NewRingBuffer_ok 3600 Hcap) as Hnew.
  destruct (NewRingBuffer_spec 3600 _ ltac:(lia) Hnew)
    as (Hwf & Hc & _ & _ & He).
  unfold NewAPMTracker. rewrite Hnew. simpl.
  eexists. split; [done|]. simpl. split_and!; try done.
Qed.

(** One refresh: either the tracker is stopped and nothing happens, or the
    current rate is shown and the peak becomes the larger of the old peak
    and that rate. *)
Lemma updateGUI_spec now1 now2 now3 a a' od :
  tracker_ok a -> updateGUI now1 now2 now3 a = Done (a', od) ->
  tracker_ok a' /\ actions a' = actions a /\
  match od with
  | None => running a = false /\ a' = a
  | Some d =>
      running a = true /\
      calculateCurrentAPM now1 a = Done (shown_current d) /\
      peakAPM a' = Z.max (peakAPM a) (shown_current d) /\
      shown_peak d = peakAPM a'
  end.
Proof.
  intros [Hwf Hcap Hpk]. unfold updateGUI.
  destruct (running a) eqn:Hrun; simpl.
  - destruct (calculateCurrentAPM_bounds now1 a Hwf) as (r & Hr & Hb).
    rewrite Hr. simpl.
    rewrite calculateAverageAPM_done by done. simpl.
    assert (0 <= r <= 3600) as Hr' by (destruct Hwf; lia).
    rewrite peak_update_max by lia.
    destruct (updateGraph _ _) as [bs|]; simpl; [|done].
    intros [= <- <-]. simpl. split_and!; try done.
    split; simpl; [done|done|lia].
  - intros [= <- <-]. split_and!; done.
Qed.

Lemma step_spec e a a' od :
  tracker_ok a -> step e a = Done (a', od) ->
  tracker_ok a' /\
  peakAPM a' = Z.max (peakAPM a)
                     (max_rate (map shown_current (from_option (fun d => [d]) [] od))).
Proof.
  intros Hok. destruct e as [now|now1 now2 now3|]; simpl.
  - destruct (onAction_spec now a (ok_wf _ Hok))
      as (a1 & -> & Hwf & Hc & _ & _ & Hpk & _). simpl.
    intros [= <- <-]. simpl. destruct Hok as [? Hcap Hp]. split.
    + split; [done|congruence|lia].
    + unfold max_rate. simpl. lia.
  - intros H. destruct (updateGUI_spec _ _ _ _ _ _ Hok H) as (Hok' & _ & Hd).
    split; [done|]. destruct od as [d|]; simpl.
    + destruct Hd as (_ & _ & -> & _). destruct Hok.
      unfold max_rate. simpl. lia.
    + destruct Hd as (_ & ->). destruct Hok. unfold max_rate. simpl. lia.
  - intros [= <- <-]. simpl. destruct Hok. unfold max_rate. simpl.
    split; [by split|lia].
Qed.


Lemma max_rate_nonneg l : 0 <= max_rate l.
Proof. induction l; unfold max_rate in *; simpl; lia. Qed.

Lemma max_rate_app l k :
  max_rate (l ++ k) = Z.max (max_rate l) (max_rate k).
Proof.
  pose proof (max_rate_nonneg k).
  induction l; unfold max_rate in *; simpl; lia.
Qed.

Lemma run_spec es a a' obs :
  tracker_ok a -> run es a = Done (a', obs) ->
  tracker_ok a' /\
  peakAPM a' = Z.max (peakAPM a) (max_rate (map shown_current obs)).
Proof.
  revert a a' obs. induction es as [|e es IH]; intros a a' obs Hok; simpl.
  - intros [= <- <-]. split; [done|]. destruct Hok. unfold max_rate. simpl. lia.
  - destruct (step e a) as [[a1 od]|] eqn:Hs; simpl; [|done].
    destruct (run es a1) as [[a2 obs2]|] eqn:Hr; simpl; [|done].
    intros [= <- <-].
    destruct (step_spec _ _ _ _ Hok Hs) as (Hok1 & Hp1).
    destruct (IH _ _ _ Hok1 Hr) as (Hok2 & Hp2).
    split; [done|].
    rewrite List.map_app, max_rate_app, Hp2, Hp1. lia.
Qed.

Lemma session_spec start es r :
  session start es = Done r ->
  tracker_ok (fst r) /\
  peakAPM (fst r) = max_rate (map shown_current (snd r)).
Proof.
  unfold session.
  destruct (NewAPMTracker_spec start) as (a & -> & Hok & Hp & _). simpl.
  destruct r as [a' obs]. intros Hrun.
  destruct (run_spec _ _ _ _ Hok Hrun) as (Hok' & Hpk).
  split; [done|]. simpl. rewrite Hpk, Hp.
  pose proof (max_rate_nonneg (map shown_current obs)). lia.
Qed.

Lemma updateGUI_frame now1 now2 now3 a a' od :
  updateGUI now1 now2 now3 a = Done (a', od) ->
  actions a' = actions a /\ startTime a' = startTime a /\
  running a' = running a.
Proof.
  unfold updateGUI. destruct (running a) eqn:Hrun; simpl.
  - destruct (calculateCurrentAPM now1 a) as [c|]; simpl; [|done].
    destruct (calculateAverageAPM now2 a) as [v|]; simpl; [|done].
    destruct (updateGraph _ _) as [bs|]; simpl; [|done].
    by intros [= <- <-].
  - by intros [= <- <-].
Qed.

Lemma calculateCurrentAPM_same_buffer now a b :
  actions b = actions a -> calculateCurrentAPM now b = calculateCurrentAPM now a.
Proof. intros H. unfold calculateCurrentAPM. by rewrite H. Qed.

(** The rates the refreshes of a run show are the rates
    [calculateCurrentAPM] returns on the buffer as the run leaves it at
    each refresh. *)
Lemma run_current_rates es : forall a b a' obs,
  tracker_ok a -> actions b = actions a -> running b = running a ->
  run es a = Done (a', obs) ->
  current_rates es b = Done (map shown_current obs).
Proof.
  induction es as [|e es IH]; intros a b a' obs Hok Hact Hrun; simpl.
  - by intros [= <- <-].
  - destruct (step e a) as [[a1 od]|] eqn:Hs; simpl; [|done].
    destruct (run es a1) as [[a2 obs2]|] eqn:Hr; simpl; [|done].
    intros [= <- <-].
    destruct (step_spec _ _ _ _ Hok Hs) as (Hok1 & _).
    destruct e as [now|now1 now2 now3|]; simpl in Hs.
    + unfold onAction in *. rewrite Hact.
      destruct (Append _ (actions a)) as [rb|]; simpl in *; [|done].
      injection Hs as <- <-. simpl.
      eapply IH; [exact Hok1|reflexivity|exact Hrun|exact Hr].
    + destruct (updateGUI_spec _ _ _ _ _ _ Hok Hs) as (_ & Hact1 & Hd).
      destruct (updateGUI_frame _ _ _ _ _ _ Hs) as (_ & _ & Hrun1).
      rewrite Hrun. destruct od as [d|]; simpl.
      * destruct Hd as (-> & Hc & _).
        rewrite (calculateCurrentAPM_same_buffer now1 a b Hact), Hc. simpl.
        rewrite (IH a1 b a2 obs2 Hok1); [done| congruence | congruence | done].
      * destruct Hd as (-> & ->). simpl.
        eapply IH; [exact Hok1|exact Hact|exact Hrun|exact Hr].
    + injection Hs as <- <-. simpl.
      eapply IH; [exact Hok1|exact Hact|reflexivity|exact Hr].
Qed.

(** C7.  The refreshes of [updateGUI] are the reads of the current rate:
    a refresh of a running tracker, when it returns, shows the rate
    [calculateCurrentAPM] returns and makes the peak the larger of the old
    peak and that rate.  So after any session that ran without panic the
    rates shown are the rates of the buffer at the refreshes, and
    [peakAPM] is the largest of them (0 when there is none); it never
    decreases when the session goes on; and it is 0 as long as no refresh
    has computed a rate. *)
Theorem peak_is_max_of_observed :
  (forall start es r,
     session start es = Done r ->
     peakAPM (fst r) = max_rate (map shown_current (snd r))) /\
  (forall start es1 es2 r1 r2,
     session start es1 = Done r1 -> run es2 (fst r1) = Done r2 ->
     peakAPM (fst r1) <= peakAPM (fst r2)) /\
  (forall start es r,
     session start es = Done r -> snd r = [] -> peakAPM (fst r) = 0) /\
  (forall start es r,
     session start es = Done r ->
     exists a0 cs,
       NewAPMTracker start = Done a0 /\
       current_rates es a0 = Done cs /\
       map shown_current (snd r) = cs /\
       peakAPM (fst r) = max_rate cs) /\
  (forall start es r now1 now2 now3 a' od,
     session start es = Done r -> running (fst r) = true ->
     updateGUI now1 now2 now3 (fst r) = Done (a', od) ->
     exists d,
       od = Some d /\
       calculateCurrentAPM now1 (fst r) = Done (shown_current d) /\
       shown_peak d = peakAPM a' /\
       peakAPM a' = Z.max (peakAPM (fst r)) (shown_current d)).
Proof.
  split_and!.
  - intros start es r H. by destruct (session_spec _ _ _ H).
  - intros start es1 es2 r1 [a2 obs2] H1 H2.
    destruct (session_spec _ _ _ H1) as (Hok & _).
    destruct (run_spec _ _ _ _ Hok H2) as (_ & Hp). simpl. lia.
  - intros start es r H Hnil.
    destruct (session_spec _ _ _ H) as (_ & ->). by rewrite Hnil.
  - intros start es [a obs] H.
    destruct (session_spec _ _ _ H) as (_ & Hpk).
    unfold session in H.
    destruct (NewAPMTracker_spec start) as (a0 & Ha0 & Hok0 & _).
    rewrite Ha0 in H. simpl in H.
    exists a0, (map shown_current obs). split_and!; try done.
    by apply (run_current_rates es a0 a0 a obs).
  - intros start es r now1 now2 now3 a' od H Hrun Hu.
    destruct (session_spec _ _ _ H) as (Hok & _).
    destruct (updateGUI_spec _ _ _ _ _ _ Hok Hu) as (_ & _ & Hd).
    destruct od as [d|].
    + exists d. destruct Hd as (_ & Hc & Hp & Hs). by split_and!.
    + destruct Hd as (Hstop & _). congruence.
Qed.

Lemma peak_is_max_of_observed_witness :
  exists r1 r2,
    session 0 [Action 1000000000; Refresh 2000000000 2000000000 2000000000]
    = Done r1 /\
    run [Action 3000000000; Refresh 4000000000 4000000000 4000000000; Closing]
        (fst r1) = Done r2 /\
    peakAPM (fst r1) = max_rate (map shown_current (snd r1)) /\
    peakAPM (fst r1) <= peakAPM (fst r2) /\
    (exists a0 cs,
       NewAPMTracker 0 = Done a0 /\
       current_rates [Action 1000000000;
                      Refresh 2000000000 2000000000 2000000000] a0
       = Done cs /\
       map shown_current (snd r1) = cs /\
       peakAPM (fst r1) = max_rate cs) /\
    map shown_current (snd r1) = [1] /\ peakAPM (fst r1) = 1.
Proof.
  destruct (session 0 [Action 1000000000;
                       Refresh 2000000000 2000000000 2000000000])
    as [r1|] eqn:E1; [|vm_compute in E1; discriminate].
  destruct (run [Action 3000000000;
                 Refresh 4000000000 4000000000 4000000000; Closing] (fst r1))
    as [r2|] eqn:E2.
  - exists r1, r2. split; [done|]. split; [done|]. split_and!.
    + exact (proj1 peak_is_max_of_observed 0 _ r1 E1).
    + exact (proj1 (proj2 peak_is_max_of_observed) 0 _ _ r1 r2 E1 E2).
    + exact (proj1 (proj2 (proj2 (proj2 peak_is_max_of_observed))) 0 _ r1 E1).
    + vm_compute in E1. by injection E1 as <-.
    + vm_compute in E1. by injection E1 as <-.
  - vm_compute in E1. injection E1 as <-. vm_compute in E2. discriminate.
Defined.

(** ** The average rate *)

Lemma short_spans_checked :
  avg_table_checked (map float64_of_int counts) (map Minutes short_spans)
  = true.
Proof. vm_cast_no_check (eq_refl true). Qed.

Lemma in_counts n : 1 <= n <= 3600 -> In n counts.
Proof.
  intros Hn. unfold counts.
  apply List.in_map_iff. exists (Z.to_nat n). split; [lia|].
  apply List.in_seq. lia.
Qed.

Lemma in_short_spans k :
  1 <= k <= 999 -> In (k * millisecond) short_spans.
Proof.
  intros Hk. unfold short_spans.
  apply List.in_map_iff. exists (Z.to_nat k). split; [lia|].
  apply List.in_seq. lia.
Qed.

Lemma avg_table_checked_spec ns ms n m :
  avg_table_checked ns ms = true -> In n ns -> In m ms ->
  avg_check n m = true.
Proof.
  unfold avg_table_checked. intros H Hn Hm.
  rewrite List.forallb_forall in H. specialize (H n Hn).
  rewrite List.forallb_forall in H. by apply H.
Qed.

(** C1, as the claim states it, fails: [calculateAverageAPM] has no
    threshold.  One event and 600 ms of elapsed time give 100, not 0. *)
Lemma average_rate_below_threshold_not_zero :
  ~ (forall start es r now,
       session start es = Done r ->
       0 <= time_sub now (startTime (fst r)) < second ->
       exists f, calculateAverageAPM now (fst r) = Done f /\
                 PrimFloat.eqb f zero = true).
Proof.
  intros H.
  destruct (session 0 [Action 0]) as [r|] eqn:E;
    [|vm_compute in E; discriminate].
  specialize (H 0 [Action 0] r 600000000 E).
  vm_compute in E. injection E as <-.
  destruct H as (f & Hf & Hz).
  - split; [intro; discriminate | reflexivity].
  - vm_compute in Hf. injection Hf as <-. vm_compute in Hz. discriminate.
Qed.

(** C1, amended.  [calculateAverageAPM] divides the size of the snapshot
    by the elapsed minutes whatever the elapsed time: there is no
    threshold and no sentinel.  With 1 to 3600 events and a positive
    elapsed time of 1 to 999 whole milliseconds the result is a finite
    number, at least 60 and not 0.  With 10 events and exactly two minutes
    elapsed the result is 5. *)
Theorem average_rate_no_threshold :
  (forall a l now,
     GetAll (actions a) = Done l ->
     calculateAverageAPM now a
     = Done (PrimFloat.div (float64_of_int (slice_len l))
                           (Minutes (time_sub now (startTime a))))) /\
  (forall a l now k,
     GetAll (actions a) = Done l ->
     1 <= slice_len l <= 3600 ->
     1 <= k <= 999 ->
     time_sub now (startTime a) = k * millisecond ->
     exists r,
       calculateAverageAPM now a = Done r /\
       PrimFloat.is_finite r = true /\
       PrimFloat.leb (float64_of_int 60) r = true /\
       PrimFloat.eqb r zero = false) /\
  (forall a l now,
     GetAll (actions a) = Done l ->
     slice_len l = 10 ->
     time_sub now (startTime a) = 2 * minute ->
     calculateAverageAPM now a = Done 5%float).
Proof.
  split_and!.
  - intros a l now Hget. unfold calculateAverageAPM. by rewrite Hget.
  - intros a l now k Hget Hlen Hk Hel.
    unfold calculateAverageAPM. rewrite Hget, Hel. simpl.
    eexists. split; [done|].
    pose proof (avg_table_checked_spec _ _
                  (float64_of_int (slice_len l)) (Minutes (k * millisecond))
                  short_spans_checked
                  (List.in_map _ _ _ (in_counts _ Hlen))
                  (List.in_map _ _ _ (in_short_spans _ Hk))) as H.
    unfold avg_check in H. cbv zeta in H.
    apply andb_prop in H as [H H3]. apply andb_prop in H as [H1 H2].
    split_and!; [done|done|by apply negb_true_iff].
  - intros a l now Hget Hlen Hel.
    unfold calculateAverageAPM. rewrite Hget. simpl. rewrite Hlen, Hel.
    vm_compute. reflexivity.
Qed.

Lemma average_rate_no_threshold_witness :
  let a := {| actions := {| data := [0; 0]; size := 1;
                            capacity := 2; head := 0 |};
              startTime := 0; peakAPM := 0; running := true |} in
  GetAll (actions a) = Done [0] /\
  1 <= slice_len [0] <= 3600 /\
  1 <= 600 <= 999 /\
  time_sub 600000000 (startTime a) = 600 * millisecond /\
  calculateAverageAPM 600000000 a
  = Done (PrimFloat.div (float64_of_int (slice_len [0]))
                        (Minutes (time_sub 600000000 (startTime a)))) /\
  exists r,
    calculateAverageAPM 600000000 a = Done r /\
    PrimFloat.is_finite r = true /\
    PrimFloat.leb (float64_of_int 60) r = true /\
    PrimFloat.eqb r zero = false.
Proof.
  intros a.
  assert (GetAll (actions a) = Done [0]) as H1 by reflexivity.
  assert (1 <= slice_len [0] <= 3600) as H2
    by (split; intro; discriminate).
  assert (1 <= 600 <= 999) as H3 by lia.
  assert (time_sub 600000000 (startTime a) = 600 * millisecond) as H4
    by reflexivity.
  split; [exact H1|]. split; [exact H2|]. split; [exact H3|].
  split; [exact H4|].
  split; [exact (proj1 average_rate_no_threshold a [0] 600000000 H1)|].
  exact (proj1 (proj2 average_rate_no_threshold)
           a [0] 600000000 600 H1 H2 H3 H4).
Defined.

(** With no time elapsed the division is by zero: NaN for an empty
    buffer, +infinity otherwise. *)
Lemma average_rate_at_zero_elapsed :
  (let! r := session 0 [] in calculateAverageAPM 0 (fst r)) = Done nan /\
  (let! r := session 0 [Action 0] in calculateAverageAPM 0 (fst r))
  = Done infinity.
Proof. split; vm_compute; reflexivity. Qed.

(** * Further properties of the code *)

(** ** The ring buffer, one call at a time *)

(** X1.  On a well-formed buffer one [Append] does not panic, and the next
    snapshot is the old one with the value at its end; when the buffer was
    full the oldest entry, and only it, is gone. *)
Theorem append_snapshot_step v rb l :
  wf rb -> GetAll rb = Done l ->
  exists rb',
    Append v rb = Done rb' /\
    GetAll rb'
    = Done (if size rb <? capacity rb then l ++ [v] else drop 1 l ++ [v]).
Proof.
  intros Hwf Hget. rewrite GetAll_contents in Hget by done.
  injection Hget as <-.
  destruct (Append_spec v rb Hwf) as (rb' & Happ & Hwf' & _ & Hk).
  exists rb'. split; [done|]. rewrite GetAll_contents by done.
  rewrite Hk. f_equal.
  pose proof (contents_length rb Hwf) as Hlen. destruct Hwf as [Hc _ Hs _ _].
  destruct (size rb <? capacity rb) eqn:E.
  - apply keep_last_all. rewrite length_app. simpl. lia.
  - unfold keep_last. rewrite length_app. simpl.
    replace (length (contents rb) + 1 - Z.to_nat (capacity rb))%nat
      with 1%nat by lia.
    apply drop_app_le. lia.
Qed.

Lemma append_snapshot_step_witness :
  let rb := {| data := [30; 20]; size := 2; capacity := 2; head := 1 |} in
  wf rb /\ GetAll rb = Done [20; 30] /\
  exists rb',
    Append 40 rb = Done rb' /\
    GetAll rb'
    = Done (if size rb <? capacity rb then [20; 30] ++ [40]
            else drop 1 [20; 30] ++ [40]).
Proof.
  intros rb.
  assert (wf rb) as Hwf.
  { split; simpl; try lia.
    - split; [reflexivity | discriminate].
    - reflexivity. }
  assert (GetAll rb = Done [20; 30]) as Hget by reflexivity.
  split; [exact Hwf|]. split; [exact Hget|].
  exact (append_snapshot_step 40 rb [20; 30] Hwf Hget).
Defined.

(** X2.  After at least [capacity] appends a well-formed buffer has
    forgotten what it held before: the snapshot is the last [capacity] of
    the values just appended, whatever the buffer was, and the buffer is
    full. *)
Theorem appends_overwrite_all vs rb :
  wf rb -> capacity rb <= slice_len vs ->
  exists rb',
    appends vs rb = Done rb' /\
    GetAll rb' = Done (drop (length vs - Z.to_nat (capacity rb)) vs) /\
    size rb' = capacity rb'.
Proof.
  intros Hwf Hlen.
  destruct (appends_spec vs rb Hwf) as (rb' & Hrun & Hwf' & Hc & Hk).
  pose proof (contents_length rb Hwf) as Hl.
  pose proof (contents_length rb' Hwf') as Hl'.
  exists rb'. split; [done|].
  assert (contents rb' = drop (length vs - Z.to_nat (capacity rb)) vs) as Hc'.
  { rewrite Hk. unfold keep_last, slice_len in *. rewrite length_app.
    destruct Hwf as [? _ ? _ _].
    rewrite drop_app_ge by lia. f_equal. lia. }
  split.
  - rewrite GetAll_contents by done. by rewrite Hc'.
  - rewrite Hc', length_drop in Hl'. unfold slice_len in Hlen.
    destruct Hwf' as [? _ ? _ _]. lia.
Qed.

Lemma appends_overwrite_all_witness :
  let rb := {| data := [30; 20]; size := 2; capacity := 2; head := 1 |} in
  wf rb /\ capacity rb <= slice_len [1; 2; 3] /\
  exists rb',
    appends [1; 2; 3] rb = Done rb' /\
    GetAll rb'
    = Done (drop (length [1; 2; 3] - Z.to_nat (capacity rb)) [1; 2; 3]) /\
    size rb' = capacity rb'.
Proof.
  intros rb.
  assert (wf rb) as Hwf.
  { split; simpl; try lia.
    - split; [reflexivity | discriminate].
    - reflexivity. }
  assert (capacity rb <= slice_len [1; 2; 3]) as Hlen
    by (intro; discriminate).
  split; [exact Hwf|]. split; [exact Hlen|].
  exact (appends_overwrite_all [1; 2; 3] rb Hwf Hlen).
Defined.

(** X3.  The snapshot is all that matters: two well-formed buffers of the
    same capacity with the same snapshot, wherever their heads are, give
    the same snapshot after the same appends. *)
Theorem snapshot_determines_future vs rb1 rb2 :
  wf rb1 -> wf rb2 -> capacity rb1 = capacity rb2 ->
  GetAll rb1 = GetAll rb2 ->
  exists rb1' rb2' l,
    appends vs rb1 = Done rb1' /\ appends vs rb2 = Done rb2' /\
    GetAll rb1' = Done l /\ GetAll rb2' = Done l.
Proof.
  intros Hwf1 Hwf2 Hcap Hget.
  rewrite !GetAll_contents in Hget by done. injection Hget as Hc.
  destruct (appends_spec vs rb1 Hwf1) as (rb1' & Hr1 & Hwf1' & _ & Hk1).
  destruct (appends_spec vs rb2 Hwf2) as (rb2' & Hr2 & Hwf2' & _ & Hk2).
  exists rb1', rb2', (contents rb1'). split_and!; try done.
  - by apply GetAll_contents.
  - rewrite GetAll_contents by done. f_equal. congruence.
Qed.

Lemma snapshot_determines_future_witness :
  let rb1 := {| data := [20; 30]; size := 2; capacity := 2; head := 0 |} in
  let rb2 := {| data := [30; 20]; size := 2; capacity := 2; head := 1 |} in
  wf rb1 /\ wf rb2 /\ capacity rb1 = capacity rb2 /\
  GetAll rb1 = GetAll rb2 /\
  exists rb1' rb2' l,
    appends [40] rb1 = Done rb1' /\ appends [40] rb2 = Done rb2' /\
    GetAll rb1' = Done l /\ GetAll rb2' = Done l.
Proof.
  intros rb1 rb2.
  assert (wf rb1) as Hwf1.
  { split; simpl; try lia.
    - split; [reflexivity | discriminate].
    - reflexivity. }
  assert (wf rb2) as Hwf2.
  { split; simpl; try lia.
    - split; [reflexivity | discriminate].
    - reflexivity. }
  split; [exact Hwf1|]. split; [exact Hwf2|].
  split; [reflexivity|]. split; [reflexivity|].
  exact (snapshot_determines_future [40] rb1 rb2 Hwf1 Hwf2 eq_refl eq_refl).
Defined.

Lemma appends_snoc vs v rb :
  appends (vs ++ [v]) rb = let! rb' := appends vs rb in Append v rb'.
Proof.
  revert rb. induction vs as [|u vs IH]; intros rb; simpl.
  - by destruct (Append v rb).
  - destruct (Append u rb) as [rb1|]; simpl; [apply IH|done].
Qed.

(** One [Append] on a well-formed buffer: [size] grows until the buffer is
    full, then [head] moves on by one slot, round the end. *)
Lemma Append_size_head v rb rb' :
  wf rb -> Append v rb = Done rb' ->
  (size rb < capacity rb -> size rb' = size rb + 1 /\ head rb' = 0) /\
  (size rb = capacity rb ->
   size rb' = size rb /\ head rb' = (head rb + 1) mod capacity rb).
Proof.
  intros [Hc Hd Hs Hh Hh0]. pose proof max_len_int as [_ Hmax].
  unfold Append. destruct (size rb <? capacity rb) eqn:E.
  - rewrite slice_set_insert by lia. simpl. intros [= <-]. simpl.
    rewrite wrap64_small by lia. split; [|lia].
    intros _. split; [done|]. apply Hh0. lia.
  - rewrite slice_set_insert by lia. simpl.
    rewrite wrap64_small by lia. rewrite go_rem_nonneg by lia. simpl.
    intros [= <-]. simpl. split; [lia|done].
Qed.

(** Where the entries lie after [n] appends to a fresh buffer. *)
Lemma fresh_appends_layout cap rb0 vs :
  0 < cap -> NewRingBuffer cap = Done rb0 ->
  exists rb,
    appends vs rb0 = Done rb /\ wf rb /\ capacity rb = cap /\
    size rb = Z.min (slice_len vs) cap /\
    head rb = (if slice_len vs <? cap then 0 else slice_len vs mod cap).
Proof.
  intros Hcap Hnew.
  induction vs as [|v vs IH] using rev_ind.
  - destruct (NewRingBuffer_spec cap rb0 Hcap Hnew) as (Hwf & Hc & Hs & Hh & _).
    exists rb0. change (slice_len (@nil Z)) with 0.
    split_and!; try done; [lia|].
    destruct (0 <? cap) eqn:E; [done|lia].
  - destruct IH as (rb & Hrun & Hwf & Hc & Hs & Hh).
    destruct (Append_spec v rb Hwf) as (rb' & Happ & Hwf' & Hc' & _).
    destruct (Append_size_head v rb rb' Hwf Happ) as (Hroom & Hfull).
    exists rb'. rewrite appends_snoc, Hrun.
    assert (slice_len (vs ++ [v]) = slice_len vs + 1) as ->
      by (unfold slice_len; rewrite length_app; simpl; lia).
    set (n := slice_len vs) in *.
    assert (0 <= n) by (unfold n, slice_len; lia).
    split_and!; [done|done|congruence|..]; destruct (n <? cap) eqn:E.
    + destruct Hroom as [-> _]; lia.
    + destruct Hfull as [-> _]; lia.
    + destruct Hroom as [_ ->]; [lia|].
      destruct (n + 1 <? cap) eqn:E'; [done|].
      replace (n + 1) with cap by lia.
      by rewrite Z.mod_same by lia.
    + destruct Hfull as [_ ->]; [lia|].
      destruct (n + 1 <? cap) eqn:E'; [lia|].
      rewrite Hh, Hc, Z.add_mod_idemp_l by lia. done.
Qed.

(** X4.  The layout of the ring.  After [n] appends to a fresh buffer of
    capacity [cap], [size] is [min n cap], [head] is [0] until the buffer
    is full and [n mod cap] from then on, and the [i]-th value appended
    (from 0), if it is among the last [cap], lies in slot [i mod cap]. *)
Theorem fresh_appends_slots cap rb0 vs :
  0 < cap -> NewRingBuffer cap = Done rb0 ->
  exists rb,
    appends vs rb0 = Done rb /\
    size rb = Z.min (slice_len vs) cap /\
    head rb = (if slice_len vs <? cap then 0 else slice_len vs mod cap) /\
    forall i, 0 <= i < slice_len vs -> slice_len vs - cap <= i ->
      data rb !! Z.to_nat (i mod cap) = vs !! Z.to_nat i.
Proof.
  intros Hcap Hnew.
  destruct (fresh_appends_layout cap rb0 vs Hcap Hnew)
    as (rb & Hrun & Hwf & Hc & Hs & Hh).
  destruct (fresh_appends_spec cap rb0 vs Hcap Hnew)
    as (rb1 & Hrun1 & _ & _ & Hk & _).
  assert (rb1 = rb) as -> by congruence.
  exists rb. split_and!; try done.
  intros i Hi Hlast. set (n := slice_len vs) in *.
  pose proof Hwf as [Hc' Hd Hsz Hhd _].
  destruct (contents_lookup rb (i - (n - size rb)) Hwf) as (x & Hx & Hcx);
    [lia|].
  assert ((head rb + (i - (n - size rb))) mod capacity rb = i mod cap) as Hm.
  { rewrite Hh, Hs, Hc. destruct (n <? cap) eqn:E.
    - f_equal. lia.
    - rewrite Z.add_mod_idemp_l by lia.
      replace (n + (i - (n - n `min` cap))) with (i + 1 * cap) by lia.
      by rewrite Z.mod_add by lia. }
  rewrite Hm in Hx. rewrite Hx, <- Hcx, Hk. unfold keep_last.
  rewrite lookup_drop. f_equal. unfold n, slice_len in *. lia.
Qed.

Lemma fresh_appends_slots_witness :
  0 < 2 /\
  NewRingBuffer 2
  = Done {| data := [0; 0]; size := 0; capacity := 2; head := 0 |} /\
  exists rb,
    appends [10; 20; 30]
            {| data := [0; 0]; size := 0; capacity := 2; head := 0 |}
    = Done rb /\
    size rb = Z.min (slice_len [10; 20; 30]) 2 /\
    head rb = (if slice_len [10; 20; 30] <? 2 then 0
               else slice_len [10; 20; 30] mod 2) /\
    forall i, 0 <= i < slice_len [10; 20; 30] ->
      slice_len [10; 20; 30] - 2 <= i ->
      data rb !! Z.to_nat (i mod 2) = [10; 20; 30] !! Z.to_nat i.
Proof.
  split; [lia|]. split; [reflexivity|].
  apply (fresh_appends_slots 2); [lia | reflexivity].
Defined.

(** ** The current rate on any snapshot *)

(** X5.  On a tracker whose buffer is well formed [calculateCurrentAPM]
    does not panic, whatever the clock and the order of the entries, and
    its result lies between 0 and the number of buffered entries, hence
    never above the capacity. *)
Theorem current_rate_bounded now a :
  wf (actions a) ->
  exists r,
    calculateCurrentAPM now a = Done r /\
    0 <= r <= size (actions a) /\ r <= capacity (actions a).
Proof.
  intros Hwf.
  destruct (calculateCurrentAPM_bounds now a Hwf) as (r & Hr & Hb).
  exists r. destruct Hwf. split_and!; [done|lia..].
Qed.

Lemma current_rate_bounded_witness :
  let a := {| actions := {| data := [30; 20]; size := 2;
                            capacity := 2; head := 1 |};
              startTime := 0; peakAPM := 0; running := true |} in
  wf (actions a) /\
  exists r,
    calculateCurrentAPM 60000000000 a = Done r /\
    0 <= r <= size (actions a) /\ r <= capacity (actions a).
Proof.
  intros a.
  assert (wf (actions a)) as Hwf.
  { split; simpl; try lia.
    - split; [reflexivity | discriminate].
    - reflexivity. }
  split; [exact Hwf|].
  exact (current_rate_bounded 60000000000 a Hwf).
Defined.

(** The backward scan on any slice: it counts the entries from the end up
    to, and without, the first one older than the cutoff. *)
Lemma current_loop_suffix l m n count :
  (n <= length l)%nat -> 0 <= count -> count + Z.of_nat n <= 2 ^ 62 ->
  exists k : nat,
    (k <= n)%nat /\
    current_loop l m n count = Done (count + Z.of_nat k) /\
    Forall (fun t => m <= t) (drop (n - k) (take n l)) /\
    ((k < n)%nat -> exists t, l !! (n - k - 1)%nat = Some t /\ t < m).
Proof.
  revert count. induction n as [|i IH]; intros count Hn Hc Hb; simpl.
  - exists 0%nat. split_and!; [lia|f_equal; lia|by simpl|lia].
  - assert (i < length l)%nat as Hlt by lia.
    destruct (lookup_lt_is_Some_2 _ _ Hlt) as [t Ht].
    rewrite (slice_get_lookup _ _ t); [|lia|by rewrite Nat2Z.id]. simpl.
    destruct (t <? m) eqn:E.
    + exists 0%nat. split_and!; [lia|f_equal; lia| |].
      * rewrite drop_ge; [done|]. rewrite length_take. lia.
      * intros _. exists t. split; [|lia].
        rewrite <- Ht. f_equal; lia.
    + rewrite wrap64_small by lia.
      destruct (IH (count + 1)) as (k & Hk & -> & Hall & Hstop); [lia..|].
      exists (S k). split_and!; [lia|f_equal; lia| |].
      * rewrite (take_S_r _ _ t) by done.
        replace (S i - S k)%nat with (i - k)%nat by lia.
        rewrite drop_app_le by (rewrite length_take; lia).
        apply Forall_app. split; [done|].
        constructor; [lia|constructor].
      * intros Hlt'. destruct Hstop as (u & Hu & Hum); [lia|].
        exists u. split; [|done]. rewrite <- Hu. f_equal; lia.
Qed.

Lemma filter_length_suffix (f : Z -> bool) (l : list Z) k :
  (k <= length l)%nat ->
  Forall (fun t => f t = true) (drop (length l - k) l) ->
  (k <= length (List.filter f l))%nat.
Proof.
  intros Hk Hall.
  rewrite <- (take_drop (length l - k) l) at 1.
  rewrite List.filter_app, length_app.
  assert (List.filter f (drop (length l - k) l) = drop (length l - k) l) as ->.
  { induction Hall as [|x xs Hx _ IH]; simpl; [done|]. by rewrite Hx, IH. }
  rewrite length_drop. lia.
Qed.

(** X6.  What [calculateCurrentAPM] returns on any snapshot, ordered or
    not: the length of the longest run of entries at the newest end none
    of which is older than the cutoff.  The entry before the run, if there
    is one, is older; entries are never compared with the clock itself, so
    entries later than the clock are counted; and the result never exceeds
    the number of entries not older than the cutoff. *)
Theorem current_rate_is_newest_run now a l :
  GetAll (actions a) = Done l ->
  let cutoff := unix_millis (wrap64 (now - minute)) in
  exists r : nat,
    calculateCurrentAPM now a = Done (Z.of_nat r) /\
    (r <= length l)%nat /\
    Forall (fun t => cutoff <= t) (drop (length l - r) l) /\
    ((r < length l)%nat ->
     exists t, l !! (length l - r - 1)%nat = Some t /\ t < cutoff) /\
    (r <= length (List.filter (Z.leb cutoff) l))%nat.
Proof.
  intros Hget cutoff. unfold calculateCurrentAPM. rewrite Hget. simpl.
  fold cutoff.
  apply GetAll_length in Hget as [Hlen Hsize].
  pose proof max_len_int as [_ Hmax].
  destruct (current_loop_suffix l cutoff (length l) 0)
    as (k & Hk & Hrun & Hall & Hstop);
    [done|done|unfold slice_len in Hlen; lia|].
  rewrite take_ge in Hall by done.
  exists k. rewrite Hrun. split_and!; try done.
  apply filter_length_suffix; [done|].
  eapply Forall_impl; [exact Hall|]. intros t Ht. simpl in Ht. lia.
Qed.

Lemma current_rate_is_newest_run_witness :
  let a := {| actions := {| data := [70000; 5; 90000; 80000]; size := 4;
                            capacity := 4; head := 0 |};
              startTime := 0; peakAPM := 0; running := true |} in
  let now := 85000000000 in
  let l := [70000; 5; 90000; 80000] in
  GetAll (actions a) = Done l /\
  let cutoff := unix_millis (wrap64 (now - minute)) in
  exists r : nat,
    calculateCurrentAPM now a = Done (Z.of_nat r) /\
    (r <= length l)%nat /\
    Forall (fun t => cutoff <= t) (drop (length l - r) l) /\
    ((r < length l)%nat ->
     exists t, l !! (length l - r - 1)%nat = Some t /\ t < cutoff) /\
    (r <= length (List.filter (Z.leb cutoff) l))%nat.
Proof.
  intros a now l.
  assert (GetAll (actions a) = Done l) as Hget by reflexivity.
  split; [exact Hget|].
  exact (current_rate_is_newest_run now a l Hget).
Defined.

Lemma current_loop_mono l m1 m2 n count :
  m1 <= m2 ->
  (n <= length l)%nat -> 0 <= count -> count + Z.of_nat n <= 2 ^ 62 ->
  exists r1 r2,
    current_loop l m1 n count = Done r1 /\
    current_loop l m2 n count = Done r2 /\ count <= r2 <= r1.
Proof.
  intros Hm. revert count.
  induction n as [|i IH]; intros count Hn Hc Hb; simpl.
  - exists count, count. split_and!; (done || lia).
  - assert (i < length l)%nat as Hlt by lia.
    destruct (lookup_lt_is_Some_2 _ _ Hlt) as [t Ht].
    rewrite (slice_get_lookup _ _ t); [|lia|by rewrite Nat2Z.id]. simpl.
    destruct (t <? m1) eqn:E1; destruct (t <? m2) eqn:E2; try lia.
    + exists count, count. split_and!; (done || lia).
    + rewrite wrap64_small by lia.
      destruct (current_loop_bounds l m1 i (count + 1)) as (r & -> & Hr);
        [lia..|].
      exists r, count. split_and!; (done || lia).
    + rewrite wrap64_small by lia.
      destruct (IH (count + 1)) as (r1 & r2 & -> & -> & Hr); [lia..|].
      exists r1, r2. split_and!; (done || lia).
Qed.

Lemma unix_millis_in_int ns :
  in_int ns -> unix_millis ns = Z.quot ns millisecond.
Proof.
  unfold in_int, int_min, int_max, unix_millis, millisecond. intros H.
  apply wrap64_id. unfold in_int, int_min, int_max.
  assert (- 2 ^ 63 <= 0 <= 2 ^ 63 - 1) as H0 by (split; intro; discriminate).
  destruct (Z.le_gt_cases 0 ns).
  - assert (0 <= Z.quot ns 1000000 <= ns); [|lia]. split.
    + apply Z.quot_pos; lia.
    + rewrite Z.quot_div_nonneg by lia. apply Z.div_le_upper_bound; lia.
  - assert (ns <= Z.quot ns 1000000 <= 0); [|lia].
    rewrite <- (Z.opp_involutive ns), Z.quot_opp_l by lia.
    assert (0 <= Z.quot (- ns) 1000000 <= - ns); [|lia]. split.
    + apply Z.quot_pos; lia.
    + rewrite Z.quot_div_nonneg by lia. apply Z.div_le_upper_bound; lia.
Qed.

Lemma unix_millis_mono a b :
  in_int a -> in_int b -> a <= b -> unix_millis a <= unix_millis b.
Proof.
  intros Ha Hb Hab. rewrite !unix_millis_in_int by done.
  apply Z.quot_le_mono; [reflexivity|done].
Qed.

(** X7.  Without new events the current rate does not go up: read on the
    same tracker at a later clock, [calculateCurrentAPM] returns at most
    what it returned at the earlier clock.  This holds for any order of
    the entries. *)
Theorem current_rate_decays now1 now2 a :
  wf (actions a) ->
  int_min + minute <= now1 -> now1 <= now2 -> now2 <= int_max ->
  exists r1 r2,
    calculateCurrentAPM now1 a = Done r1 /\
    calculateCurrentAPM now2 a = Done r2 /\ 0 <= r2 <= r1.
Proof.
  intros Hwf H1 H12 H2. unfold calculateCurrentAPM.
  rewrite GetAll_contents by done. simpl.
  pose proof (contents_length _ Hwf) as Hlen.
  pose proof Hwf as [Hc Hd Hs Hh Hh0].
  pose proof max_len_int as [_ Hmax].
  assert (minute = 60000000000) as Hmin by reflexivity.
  assert (int_min = - 2 ^ 63 /\ int_max = 2 ^ 63 - 1) as [Hlo Hhi] by done.
  assert (in_int (now1 - minute) /\ in_int (now2 - minute)) as [Hi1 Hi2]
    by (unfold in_int; lia).
  rewrite !wrap64_id by done.
  destruct (current_loop_mono (contents (actions a))
              (unix_millis (now1 - minute)) (unix_millis (now2 - minute))
              (length (contents (actions a))) 0)
    as (r1 & r2 & -> & -> & Hr); [|lia..|].
  - apply unix_millis_mono; [done|done|lia].
  - exists r1, r2. split_and!; (done || lia).
Qed.

Lemma current_rate_decays_witness :
  let a := {| actions := {| data := [30000; 20000]; size := 2;
                            capacity := 2; head := 1 |};
              startTime := 0; peakAPM := 0; running := true |} in
  wf (actions a) /\
  int_min + minute <= 70000000000 /\ 70000000000 <= 85000000000 /\
  85000000000 <= int_max /\
  exists r1 r2,
    calculateCurrentAPM 70000000000 a = Done r1 /\
    calculateCurrentAPM 85000000000 a = Done r2 /\ 0 <= r2 <= r1.
Proof.
  intros a.
  assert (wf (actions a)) as Hwf.
  { split; simpl; try lia.
    - split; [reflexivity | discriminate].
    - reflexivity. }
  assert (int_min + minute <= 70000000000) as H1 by (intro; discriminate).
  assert (70000000000 <= 85000000000) as H2 by lia.
  assert (85000000000 <= int_max) as H3 by (intro; discriminate).
  split; [exact Hwf|]. split; [exact H1|]. split; [exact H2|].
  split; [exact H3|].
  exact (current_rate_decays 70000000000 85000000000 a Hwf H1 H2 H3).
Defined.

(** ** Sessions *)

Lemma step_frame e a a' od :
  tracker_ok a -> step e a = Done (a', od) ->
  startTime a' = startTime a /\
  (running a = false -> running a' = false /\ od = None) /\
  contents (actions a')
  = keep_last 3600 (contents (actions a) ++ map unix_millis (action_clocks [e])).
Proof.
  intros [Hwf Hcap Hpk].
  assert (contents (actions a) = keep_last 3600 (contents (actions a) ++ []))
    as Hsame.
  { rewrite app_nil_r, keep_last_all; [done|].
    rewrite contents_length by done. destruct Hwf. lia. }
  destruct e as [now|now1 now2 now3|]; simpl.
  - destruct (onAction_spec now a Hwf)
      as (a1 & -> & _ & _ & Hk & Hst & _ & Hrun). simpl.
    intros [= <- <-]. rewrite Hk, Hcap. split_and!; try done.
    intros H. split; [congruence|done].
  - intros H. pose proof H as Hu. apply updateGUI_frame in H as (-> & -> & ->).
    split_and!; try done. intros Hrun. split; [done|].
    unfold updateGUI in Hu. rewrite Hrun in Hu. simpl in Hu. congruence.
  - intros [= <- <-]. simpl. split_and!; done.
Qed.

Lemma run_frame es a a' obs :
  tracker_ok a -> run es a = Done (a', obs) ->
  tracker_ok a' /\ startTime a' = startTime a /\
  (running a = false -> running a' = false /\ obs = []) /\
  contents (actions a')
  = keep_last 3600 (contents (actions a) ++ map unix_millis (action_clocks es)).
Proof.
  revert a a' obs. induction es as [|e es IH]; intros a a' obs Hok; simpl.
  - intros [= <- <-]. split_and!; try done.
    rewrite app_nil_r, keep_last_all; [done|].
    destruct Hok as [Hwf ? ?]. rewrite contents_length by done.
    destruct Hwf. lia.
  - destruct (step e a) as [[a1 od]|] eqn:Hs; simpl; [|done].
    destruct (run es a1) as [[a2 obs2]|] eqn:Hr; simpl; [|done].
    intros [= <- <-].
    destruct (step_spec _ _ _ _ Hok Hs) as (Hok1 & _).
    destruct (step_frame _ _ _ _ Hok Hs) as (Hst1 & Hrun1 & Hk1).
    destruct (IH _ _ _ Hok1 Hr) as (Hok2 & Hst2 & Hrun2 & Hk2).
    split_and!; [done|congruence| |].
    + intros Hrun. destruct (Hrun1 Hrun) as [Hr1 ->].
      destruct (Hrun2 Hr1) as [? ->]. done.
    + rewrite Hk2, Hk1, keep_last_app, <- app_assoc. do 2 f_equal.
      by destruct e.
Qed.

Lemma session_frame start es r :
  session start es = Done r ->
  tracker_ok (fst r) /\ startTime (fst r) = start /\
  contents (actions (fst r))
  = keep_last 3600 (map unix_millis (action_clocks es)).
Proof.
  unfold session.
  destruct (NewAPMTracker_spec start) as (a & -> & Hok & _ & _ & Hst & He).
  simpl. destruct r as [a' obs]. intros Hrun.
  destruct (run_frame _ _ _ _ Hok Hrun) as (Hok' & Hst' & _ & Hk).
  simpl. split_and!; [done|congruence|]. by rewrite Hk, He.
Qed.

(** X8.  Whatever a session does, the snapshot of its tracker is the
    millisecond timestamps of its last 3600 actions, in the order of the
    actions: every action is recorded once, and neither a refresh nor the
    closing alters the buffer. *)
Theorem session_snapshot start es r :
  session start es = Done r ->
  GetAll (actions (fst r))
  = Done (keep_last 3600 (map unix_millis (action_clocks es))) /\
  size (actions (fst r)) = Z.min (slice_len (action_clocks es)) 3600.
Proof.
  intros H. destruct (session_frame _ _ _ H) as ([Hwf Hcap _] & _ & Hk).
  split.
  - rewrite GetAll_contents by done. by rewrite Hk.
  - pose proof (contents_length _ Hwf) as Hlen.
    rewrite Hk, keep_last_length, length_map in Hlen.
    destruct Hwf. unfold slice_len. lia.
Qed.

Lemma session_snapshot_witness :
  exists r,
    session 0 [Action 1000000000; Refresh 2000000000 2000000000 2000000000;
               Closing; Action 3000000000] = Done r /\
    GetAll (actions (fst r))
    = Done (keep_last 3600
              (map unix_millis
                 (action_clocks
                    [Action 1000000000;
                     Refresh 2000000000 2000000000 2000000000;
                     Closing; Action 3000000000]))) /\
    size (actions (fst r))
    = Z.min (slice_len
               (action_clocks
                  [Action 1000000000;
                   Refresh 2000000000 2000000000 2000000000;
                   Closing; Action 3000000000])) 3600.
Proof.
  destruct (session 0 [Action 1000000000;
                       Refresh 2000000000 2000000000 2000000000;
                       Closing; Action 3000000000])
    as [r|] eqn:E; [|vm_compute in E; discriminate].
  exists r. split; [done|].
  exact (session_snapshot 0 _ r E).
Defined.

Lemma Sorted_unix_millis l :
  Forall in_int l -> Sorted Z.le l -> Sorted Z.le (map unix_millis l).
Proof.
  intros Hin Hs. apply (Sorted_StronglySorted Z.le) in Hs.
  apply StronglySorted_Sorted.
  induction Hs as [|x l Hs IH Hx]; simpl; [constructor|].
  apply Forall_cons in Hin as [Hix Hil].
  constructor; [by apply IH|].
  apply Forall_fmap. rewrite Forall_forall in Hx, Hil |- *.
  intros y Hy. simpl. apply unix_millis_mono; auto.
Qed.

(** X9.  The order the backward scan relies on.  When the clock readings
    of the actions of a session never go back (and fit an [int64]), the
    snapshot is in non-decreasing order. *)
Theorem session_snapshot_sorted start es r :
  session start es = Done r ->
  Forall in_int (action_clocks es) -> Sorted Z.le (action_clocks es) ->
  exists l, GetAll (actions (fst r)) = Done l /\ Sorted Z.le l.
Proof.
  intros H Hin Hs. destruct (session_frame _ _ _ H) as ([Hwf _ _] & _ & Hk).
  exists (contents (actions (fst r))). split; [by apply GetAll_contents|].
  rewrite Hk. apply Sorted_keep_last. by apply Sorted_unix_millis.
Qed.

Lemma session_snapshot_sorted_witness :
  exists r,
    session 0 [Action 1000000000; Action 1000000000; Action 3000000000]
    = Done r /\
    Forall in_int [1000000000; 1000000000; 3000000000] /\
    Sorted Z.le [1000000000; 1000000000; 3000000000] /\
    exists l, GetAll (actions (fst r)) = Done l /\ Sorted Z.le l.
Proof.
  destruct (session 0 [Action 1000000000; Action 1000000000;
                       Action 3000000000])
    as [r|] eqn:E; [|vm_compute in E; discriminate].
  assert (Forall in_int [1000000000; 1000000000; 3000000000]) as Hin
    by (repeat constructor; intro; discriminate).
  assert (Sorted Z.le [1000000000; 1000000000; 3000000000]) as Hs
    by (repeat constructor; lia).
  exists r. split; [done|]. split; [exact Hin|]. split; [exact Hs|].
  exact (session_snapshot_sorted 0 _ r E Hin Hs).
Defined.

(** On a non-decreasing snapshot the scan counts every entry not older
    than the cutoff. *)
Lemma calculateCurrentAPM_sorted now a l :
  GetAll (actions a) = Done l -> Sorted Z.le l ->
  calculateCurrentAPM now a
  = Done (Z.of_nat (length (List.filter
                              (Z.leb (unix_millis (wrap64 (now - minute)))) l))).
Proof.
  intros Hget Hsorted. unfold calculateCurrentAPM. rewrite Hget. simpl.
  apply GetAll_length in Hget as [Hlen Hsize].
  pose proof max_len_int as [_ Hmax].
  rewrite current_loop_spec;
    [|by apply (Sorted_StronglySorted Z.le)|done|done
     |unfold slice_len in Hlen; lia].
  rewrite take_ge by done. f_equal.
Qed.

(** X10.  From the events to the rate.  In a session whose action clocks
    never go back, read at a clock not earlier than any action and at
    least a minute past the epoch, the current rate is the number of the
    last 3600 action timestamps that are at most 60000 ms old.  So it
    counts every action of the last minute as long as there are no more
    than 3600 of them, and never shows more than 3600. *)
Theorem session_current_rate start es r now :
  session start es = Done r ->
  Sorted Z.le (action_clocks es) ->
  Forall (fun c => 0 <= c <= now) (action_clocks es) ->
  minute <= now <= int_max ->
  calculateCurrentAPM now (fst r)
  = Done (window_count (unix_millis now - 60000) (unix_millis now)
            (keep_last 3600 (map unix_millis (action_clocks es)))) /\
  window_count (unix_millis now - 60000) (unix_millis now)
    (keep_last 3600 (map unix_millis (action_clocks es))) <= 3600.
Proof.
  intros H Hs Hle Hnow.
  destruct (session_frame _ _ _ H) as ([Hwf _ _] & _ & Hk).
  assert (int_max = 2 ^ 63 - 1 /\ int_min = - 2 ^ 63 /\ minute = 60000000000)
    as (Hhi & Hlo & Hmin) by done.
  assert (Forall in_int (action_clocks es)) as Hin.
  { eapply Forall_impl; [exact Hle|]. intros c Hc. simpl in Hc.
    unfold in_int. lia. }
  split.
  - rewrite (calculateCurrentAPM_sorted now _ (contents (actions (fst r))));
      [|by apply GetAll_contents
       |rewrite Hk; by apply Sorted_keep_last, Sorted_unix_millis].
    rewrite minute_ago by done. rewrite Hk. unfold window_count.
    do 3 f_equal. apply List.filter_ext_in. intros t Ht.
    apply list_elem_of_In in Ht. unfold keep_last in Ht.
    apply subseteq_drop, list_elem_of_In in Ht.
    apply List.in_map_iff in Ht as (c & <- & Hc).
    apply list_elem_of_In in Hc.
    rewrite Forall_forall in Hle. specialize (Hle c Hc). simpl in Hle.
    assert (unix_millis c <= unix_millis now)
      by (apply unix_millis_mono; unfold in_int; lia).
    unfold in_window. lia.
  - unfold window_count.
    pose proof (List.filter_length_le
                  (in_window (unix_millis now - 60000) (unix_millis now))
                  (keep_last 3600 (map unix_millis (action_clocks es)))) as Hf.
    rewrite keep_last_length in Hf. lia.
Qed.

Lemma session_current_rate_witness :
  exists r,
    session 0 [Action 1000000000; Action 50000000000; Action 70000000000]
    = Done r /\
    Sorted Z.le [1000000000; 50000000000; 70000000000] /\
    Forall (fun c => 0 <= c <= 80000000000)
           [1000000000; 50000000000; 70000000000] /\
    (minute <= 80000000000 <= int_max) /\
    calculateCurrentAPM 80000000000 (fst r)
    = Done (window_count (unix_millis 80000000000 - 60000)
              (unix_millis 80000000000)
              (keep_last 3600
                 (map unix_millis [1000000000; 50000000000; 70000000000]))).
Proof.
  destruct (session 0 [Action 1000000000; Action 50000000000;
                       Action 70000000000])
    as [r|] eqn:E; [|vm_compute in E; discriminate].
  assert (Sorted Z.le [1000000000; 50000000000; 70000000000]) as Hs
    by (repeat constructor; lia).
  assert (Forall (fun c => 0 <= c <= 80000000000)
                 [1000000000; 50000000000; 70000000000]) as Hle
    by (repeat constructor; lia).
  assert (minute <= 80000000000 <= int_max) as Hnow
    by (split; intro; discriminate).
  exists r. split; [done|]. split; [exact Hs|]. split; [exact Hle|].
  split; [exact Hnow|].
  exact (proj1 (session_current_rate 0 _ r 80000000000 E Hs Hle Hnow)).
Defined.

(** X11.  The average is taken over what the buffer holds, not over what
    the session saw: after [n] actions [calculateAverageAPM] divides
    [min n 3600] by the minutes since the start, so from the 3601st action
    on further actions no longer raise it.  It does not panic. *)
Theorem session_average_rate start es r now :
  session start es = Done r ->
  calculateAverageAPM now (fst r)
  = Done (PrimFloat.div
            (float64_of_int (Z.min (slice_len (action_clocks es)) 3600))
            (Minutes (time_sub now start))).
Proof.
  intros H. destruct (session_frame _ _ _ H) as ([Hwf Hcap _] & Hst & Hk).
  rewrite calculateAverageAPM_done by done. rewrite Hst. do 3 f_equal.
  pose proof (contents_length _ Hwf) as Hlen.
  rewrite Hk, keep_last_length, length_map in Hlen.
  destruct Hwf. unfold slice_len. lia.
Qed.

Lemma session_average_rate_witness :
  exists r,
    session 0 [Action 1000000000; Action 50000000000] = Done r /\
    calculateAverageAPM 120000000000 (fst r)
    = Done (PrimFloat.div
              (float64_of_int
                 (Z.min (slice_len (action_clocks
                                      [Action 1000000000; Action 50000000000]))
                        3600))
              (Minutes (time_sub 120000000000 0))).
Proof.
  destruct (session 0 [Action 1000000000; Action 50000000000])
    as [r|] eqn:E; [|vm_compute in E; discriminate].
  exists r. split; [done|].
  exact (session_average_rate 0 _ r 120000000000 E).
Defined.

(** ** After closing *)

Lemma run_stopped_total es a :
  tracker_ok a -> running a = false -> exists r, run es a = Done r.
Proof.
  revert a. induction es as [|e es IH]; intros a Hok Hrun; simpl;
    [by eexists|].
  assert (exists a1 od, step e a = Done (a1, od)) as (a1 & od & Hs).
  { destruct e as [now|n1 n2 n3|]; simpl.
    - destruct (onAction_spec now a (ok_wf _ Hok)) as (a1 & -> & _).
      by eexists _, _.
    - unfold updateGUI. rewrite Hrun. by eexists _, _.
    - by eexists _, _. }
  rewrite Hs. simpl.
  destruct (step_spec _ _ _ _ Hok Hs) as (Hok1 & _).
  destruct (step_frame _ _ _ _ Hok Hs) as (_ & Hr1 & _).
  destruct (Hr1 Hrun) as [Hrun1 _].
  destruct (IH a1 Hok1 Hrun1) as [r2 ->]. by eexists.
Qed.

(** X12.  A stopped tracker stays stopped.  After [onClosing], whatever
    follows (actions, refreshes, closing again) runs without panic, no
    refresh shows anything, [running] stays false and the peak keeps its
    value; only the buffer still takes the actions. *)
Theorem stopped_stays_stopped start es1 es2 r1 :
  session start es1 = Done r1 ->
  exists r2,
    run (Closing :: es2) (fst r1) = Done r2 /\
    snd r2 = [] /\ running (fst r2) = false /\
    peakAPM (fst r2) = peakAPM (fst r1) /\
    GetAll (actions (fst r2))
    = Done (keep_last 3600 (contents (actions (fst r1))
                            ++ map unix_millis (action_clocks es2))).
Proof.
  intros H. destruct (session_frame _ _ _ H) as (Hok & _ & _).
  assert (tracker_ok (onClosing (fst r1))) as Hok'
    by (destruct Hok; by split).
  destruct (run_stopped_total es2 _ Hok' eq_refl) as [[a2 obs2] Hrun].
  destruct (run_frame _ _ _ _ Hok' Hrun) as (Hok2 & _ & Hstop & Hk).
  destruct (run_spec _ _ _ _ Hok' Hrun) as (_ & Hpk).
  destruct (Hstop eq_refl) as [Hr ->].
  exists (a2, []). simpl. rewrite Hrun. simpl in *.
  split_and!; try done.
  - rewrite Hpk. unfold max_rate. simpl. destruct Hok. lia.
  - rewrite GetAll_contents by (by destruct Hok2). by rewrite Hk.
Qed.

Lemma stopped_stays_stopped_witness :
  exists r1 r2,
    session 0 [Action 1000000000; Refresh 2000000000 2000000000 2000000000]
    = Done r1 /\
    run (Closing :: [Action 62000000000;
                     Refresh 62000000000 62000000000 62000000000])
        (fst r1) = Done r2 /\
    snd r2 = [] /\ running (fst r2) = false /\
    peakAPM (fst r2) = peakAPM (fst r1).
Proof.
  destruct (session 0 [Action 1000000000;
                       Refresh 2000000000 2000000000 2000000000])
    as [r1|] eqn:E; [|vm_compute in E; discriminate].
  destruct (stopped_stays_stopped 0 _
              [Action 62000000000;
               Refresh 62000000000 62000000000 62000000000] r1 E)
    as (r2 & H1 & H2 & H3 & H4 & _).
  exists r1, r2. by split_and!.
Defined.

(** ** The histogram of [updateGraph] *)

Lemma wrap64_range z : in_int (wrap64 z).
Proof.
  unfold in_int, int_min, int_max, wrap64.
  assert (0 <= (z + 2 ^ 63) mod 2 ^ 64 < 2 ^ 64)
    by (apply Z.mod_pos_bound; reflexivity).
  change (2 ^ 64) with (2 * 2 ^ 63) in *. lia.
Qed.

Lemma quot_1000_window d : -1000 < d < 60000 -> 0 <= Z.quot d 1000 < 60.
Proof.
  intros Hd. destruct (Z.le_gt_cases 0 d).
  - rewrite Z.quot_div_nonneg by lia. split.
    + apply Z.div_pos; lia.
    + apply Z.div_lt_upper_bound; lia.
  - rewrite <- (Z.opp_involutive d), Z.quot_opp_l by lia.
    rewrite Z.quot_small by lia. lia.
Qed.

Lemma quot_1000_ahead d : int_min <= d <= -1000 -> int_min <= Z.quot d 1000 < 0.
Proof.
  intros Hd. assert (int_min = - 2 ^ 63) as Hlo by reflexivity.
  rewrite <- (Z.opp_involutive d), Z.quot_opp_l by lia.
  rewrite Z.quot_div_nonneg by lia.
  assert (1 <= - d / 1000 <= - d); [|lia]. split.
  - apply Z.div_le_lower_bound; lia.
  - apply Z.div_le_upper_bound; lia.
Qed.

Lemma zsum_insert (l : list Z) j c c' :
  l !! j = Some c -> zsum (<[j := c']> l) = zsum l - c + c'.
Proof.
  revert j. induction l as [|x l IH]; intros [|j] H; simpl in *; try done.
  - injection H as ->. unfold zsum. simpl. lia.
  - specialize (IH j H). unfold zsum in *. simpl. lia.
Qed.

(** One entry the loop can place: it is skipped when older than a minute,
    and otherwise counted in the bucket of its age, inside the array. *)
Lemma bucket_loop_step now t rest buckets B :
  slice_len buckets = 60 -> Forall (fun c => 0 <= c <= B) buckets ->
  0 <= B < 2 ^ 62 -> bucket_safe now t = true ->
  let d := wrap64 (now - t) in
  if d <=? 60000 then
    exists c, buckets !! Z.to_nat (Z.quot d 1000) = Some c /\
      0 <= Z.quot d 1000 < 60 /\ 0 <= c <= B /\
      bucket_loop now (t :: rest) buckets
      = bucket_loop now rest (<[Z.to_nat (Z.quot d 1000) := c + 1]> buckets)
  else bucket_loop now (t :: rest) buckets = bucket_loop now rest buckets.
Proof.
  intros Hlen Hall HB Hsafe d. unfold bucket_safe in Hsafe. fold d in Hsafe.
  simpl. fold d. destruct (d <=? 60000) eqn:E; [|done].
  assert (-1000 < d < 60000) as Hd by lia.
  pose proof (quot_1000_window d Hd) as Hq.
  rewrite (wrap64_small (Z.quot d 1000)) by lia.
  assert (Z.to_nat (Z.quot d 1000) < length buckets)%nat as Hlt
    by (unfold slice_len in Hlen; lia).
  destruct (lookup_lt_is_Some_2 _ _ Hlt) as [c Hc].
  assert (0 <= c <= B) as Hcb.
  { rewrite Forall_forall in Hall. apply Hall.
    apply list_elem_of_lookup. eauto. }
  exists c. split_and!; try done; try lia.
  rewrite (slice_get_lookup _ _ c) by (done || lia). simpl.
  rewrite slice_set_insert by lia. simpl.
  by rewrite wrap64_small by lia.
Qed.

Lemma in_bucket_iff now i t :
  in_bucket now i t = true <->
  wrap64 (now - t) <= 60000 /\ wrap64 (Z.quot (wrap64 (now - t)) 1000) = i.
Proof. unfold in_bucket. lia. Qed.

Lemma bucket_count_cons now i t l :
  bucket_count now i (t :: l)
  = (if in_bucket now i t then 1 else 0) + bucket_count now i l.
Proof.
  unfold bucket_count. simpl. destruct (in_bucket now i t); simpl; lia.
Qed.

Lemma bucket_loop_counts now dat : forall buckets B,
  slice_len buckets = 60 -> Forall (fun c => 0 <= c <= B) buckets ->
  0 <= B -> B + slice_len dat < 2 ^ 62 ->
  forallb (bucket_safe now) dat = true ->
  exists b',
    bucket_loop now dat buckets = Done b' /\ slice_len b' = 60 /\
    (forall i c, 0 <= i < 60 -> buckets !! Z.to_nat i = Some c ->
       b' !! Z.to_nat i = Some (c + bucket_count now i dat)) /\
    zsum b'
    = zsum buckets
      + Z.of_nat (length (List.filter
                            (fun t => wrap64 (now - t) <=? 60000) dat)).
Proof.
  induction dat as [|t rest IH]; intros buckets B Hlen Hall HB Hb Hsafe.
  - exists buckets. simpl. split_and!; try done; [|lia].
    intros i c _ ->. unfold bucket_count. simpl. f_equal. lia.
  - simpl in Hsafe. apply andb_prop in Hsafe as [Hst Hsr].
    assert (slice_len (t :: rest) = slice_len rest + 1) as Hl1
      by (unfold slice_len; simpl; lia).
    pose proof (bucket_loop_step now t rest buckets B Hlen Hall
                  ltac:(unfold slice_len in *; lia) Hst) as Hstep.
    cbv zeta in Hstep.
    change (List.filter (fun t0 => wrap64 (now - t0) <=? 60000) (t :: rest))
      with (if wrap64 (now - t) <=? 60000
            then t :: List.filter (fun t0 => wrap64 (now - t0) <=? 60000) rest
            else List.filter (fun t0 => wrap64 (now - t0) <=? 60000) rest).
    destruct (wrap64 (now - t) <=? 60000) eqn:E.
    + destruct Hstep as (c & Hc & Hq & Hcb & ->).
      set (j := Z.quot (wrap64 (now - t)) 1000) in *.
      destruct (IH (<[Z.to_nat j := c + 1]> buckets) (B + 1))
        as (b' & -> & Hlen' & Hcount & Hsum);
        [unfold slice_len in *; by rewrite length_insert
        |apply Forall_insert; [|lia];
         eapply Forall_impl; [exact Hall|]; simpl; intros; lia
        |lia|lia|done|].
      exists b'. split_and!; [done|done| |].
      * intros i c0 Hi Hc0. rewrite bucket_count_cons.
        destruct (decide (i = j)) as [->|Hne].
        -- rewrite Hc in Hc0. injection Hc0 as <-.
           rewrite (proj2 (in_bucket_iff now j t)).
           ++ rewrite (Hcount j (c + 1)); [f_equal; lia|done|].
              apply list_lookup_insert_eq. unfold slice_len in Hlen. lia.
           ++ split; [lia|]. fold j. apply wrap64_small. lia.
        -- assert (in_bucket now i t = false) as ->.
           { apply not_true_is_false. intros [_ H]%in_bucket_iff.
             fold j in H. rewrite wrap64_small in H by lia. done. }
           rewrite (Hcount i c0); [f_equal; lia|done|].
           rewrite list_lookup_insert_ne by lia. done.
      * rewrite Hsum, (zsum_insert _ _ c) by done. simpl. lia.
    + rewrite Hstep.
      destruct (IH buckets B) as (b' & -> & Hlen' & Hcount & Hsum);
        [done|done|lia|lia|done|].
      exists b'. split_and!; [done|done| |done].
      intros i c0 Hi Hc0. rewrite bucket_count_cons.
      assert (in_bucket now i t = false) as ->.
      { apply not_true_is_false. intros [H _]%in_bucket_iff. lia. }
      by apply Hcount.
Qed.

(** An entry the loop cannot place makes it panic, wherever it stands. *)
Lemma bucket_loop_unsafe now dat : forall buckets B,
  slice_len buckets = 60 -> Forall (fun c => 0 <= c <= B) buckets ->
  0 <= B -> B + slice_len dat < 2 ^ 62 ->
  forallb (bucket_safe now) dat = false ->
  bucket_loop now dat buckets = Panic IndexOutOfRange.
Proof.
  induction dat as [|t rest IH]; intros buckets B Hlen Hall HB Hb Hsafe;
    [done|].
  assert (slice_len (t :: rest) = slice_len rest + 1) as Hl1
    by (unfold slice_len; simpl; lia).
  simpl in Hsafe. destruct (bucket_safe now t) eqn:Hst; simpl in Hsafe.
  - pose proof (bucket_loop_step now t rest buckets B Hlen Hall
                  ltac:(unfold slice_len in *; lia) Hst) as Hstep.
    cbv zeta in Hstep. destruct (wrap64 (now - t) <=? 60000) eqn:E.
    + destruct Hstep as (c & Hc & Hq & Hcb & ->).
      apply (IH _ (B + 1)); try done; try lia.
      * unfold slice_len in *. by rewrite length_insert.
      * apply Forall_insert; [|lia].
        eapply Forall_impl; [exact Hall|]. simpl. intros. lia.
    + rewrite Hstep. by apply (IH _ B); try lia.
  - unfold bucket_safe in Hst. simpl.
    set (d := wrap64 (now - t)) in *.
    pose proof (wrap64_range (now - t)) as Hr. fold d in Hr.
    unfold in_int in Hr.
    assert (int_min = - 2 ^ 63 /\ int_max = 2 ^ 63 - 1) as [Hlo Hhi] by done.
    destruct (d <=? 60000) eqn:E; [|lia].
    assert (d = 60000 \/ d <= -1000) as [->|Hd] by lia.
    + unfold slice_get. rewrite Hlen. reflexivity.
    + pose proof (quot_1000_ahead d ltac:(lia)) as Hq.
      rewrite (wrap64_id (Z.quot d 1000)) by (unfold in_int; lia).
      unfold slice_get. destruct (0 <=? Z.quot d 1000) eqn:E'; [lia|done].
Qed.

Lemma zsum_replicate n : zsum (replicate n 0) = 0.
Proof. induction n; unfold zsum in *; simpl; lia. Qed.

(** X13.  The histogram.  When every entry of the snapshot is less than
    a second ahead of the clock and not exactly 60000 ms old,
    [updateGraph] returns 60 buckets; bucket [i] holds the number of
    entries at most 60000 ms old whose age in whole seconds is [i]
    (entries up to 999 ms ahead of the clock fall in bucket 0); and the
    buckets sum to the number of entries at most 60000 ms old. *)
Theorem updateGraph_counts clock a l :
  GetAll (actions a) = Done l ->
  forallb (bucket_safe (unix_millis clock)) l = true ->
  exists bs,
    updateGraph clock a = Done bs /\ slice_len bs = 60 /\
    (forall i, 0 <= i < 60 ->
       bs !! Z.to_nat i = Some (bucket_count (unix_millis clock) i l)) /\
    zsum bs
    = Z.of_nat (length (List.filter
                  (fun t => wrap64 (unix_millis clock - t) <=? 60000) l)).
Proof.
  intros Hget Hsafe. unfold updateGraph. rewrite Hget. cbn [outcome_bind].
  apply GetAll_length in Hget as [Hlen Hsize].
  pose proof max_len_int as [_ Hmax].
  change (make_slice sizeof_int 0 60) with (Done (replicate 60 0)).
  cbn [outcome_bind].
  destruct (bucket_loop_counts (unix_millis clock) l (replicate 60 0) 0)
    as (bs & -> & Hl & Hcount & Hsum); try done; try lia.
  - apply Forall_replicate. lia.
  - exists bs. split; [done|]. split; [done|]. split.
    + intros i Hi. rewrite (Hcount i 0); [done|done|].
      apply lookup_replicate_2. lia.
    + rewrite Hsum, zsum_replicate. lia.
Qed.

Lemma updateGraph_counts_witness :
  let a := {| actions := {| data := [500; 1500; 59000; 61200]; size := 4;
                            capacity := 4; head := 0 |};
              startTime := 0; peakAPM := 0; running := true |} in
  let l := [500; 1500; 59000; 61200] in
  let clock := 60000000000 + 1000000000 in
  GetAll (actions a) = Done l /\
  forallb (bucket_safe (unix_millis clock)) l = true /\
  exists bs,
    updateGraph clock a = Done bs /\ slice_len bs = 60 /\
    (forall i, 0 <= i < 60 ->
       bs !! Z.to_nat i = Some (bucket_count (unix_millis clock) i l)) /\
    zsum bs
    = Z.of_nat (length (List.filter
                  (fun t => wrap64 (unix_millis clock - t) <=? 60000) l)).
Proof.
  intros a l clock.
  assert (GetAll (actions a) = Done l) as H1 by reflexivity.
  assert (forallb (bucket_safe (unix_millis clock)) l = true) as H2
    by reflexivity.
  split; [exact H1|]. split; [exact H2|].
  exact (updateGraph_counts clock a l H1 H2).
Defined.

(** X14.  When the snapshot has an entry exactly 60000 ms old, or one
    1000 ms or more ahead of the clock (the wall clock was set back),
    [updateGraph] panics with an index out of range, wherever the entry
    stands in the snapshot. *)
Theorem updateGraph_panics clock a l t :
  GetAll (actions a) = Done l -> t ∈ l ->
  wrap64 (unix_millis clock - t) = 60000 \/
  wrap64 (unix_millis clock - t) <= -1000 ->
  updateGraph clock a = Panic IndexOutOfRange.
Proof.
  intros Hget Ht Hd. unfold updateGraph. rewrite Hget. cbn [outcome_bind].
  apply GetAll_length in Hget as [Hlen Hsize].
  pose proof max_len_int as [_ Hmax].
  change (make_slice sizeof_int 0 60) with (Done (replicate 60 0)).
  cbn [outcome_bind].
  apply (bucket_loop_unsafe _ _ _ 0); try done; try lia.
  - apply Forall_replicate. lia.
  - apply not_true_is_false. intros H.
    rewrite List.forallb_forall in H.
    specialize (H t (proj1 (list_elem_of_In _ _) Ht)).
    unfold bucket_safe in H. lia.
Qed.

Lemma updateGraph_panics_witness :
  let a := {| actions := {| data := [1000; 70000]; size := 2;
                            capacity := 2; head := 0 |};
              startTime := 0; peakAPM := 0; running := true |} in
  GetAll (actions a) = Done [1000; 70000] /\
  70000 ∈ [1000; 70000] /\
  (wrap64 (unix_millis 2000000000 - 70000) = 60000 \/
   wrap64 (unix_millis 2000000000 - 70000) <= -1000) /\
  updateGraph 2000000000 a = Panic IndexOutOfRange.
Proof.
  intros a.
  assert (GetAll (actions a) = Done [1000; 70000]) as H1 by reflexivity.
  assert (70000 ∈ [1000; 70000]) as H2
    by (apply list_elem_of_further, list_elem_of_here).
  assert (wrap64 (unix_millis 2000000000 - 70000) = 60000 \/
          wrap64 (unix_millis 2000000000 - 70000) <= -1000) as H3
    by (right; intro; discriminate).
  split; [exact H1|]. split; [exact H2|]. split; [exact H3|].
  exact (updateGraph_panics 2000000000 a [1000; 70000] 70000 H1 H2 H3).
Defined.

(** ** Refreshes *)

Lemma updateGraph_outcome clock a l :
  GetAll (actions a) = Done l ->
  if forallb (bucket_safe (unix_millis clock)) l
  then exists bs, updateGraph clock a = Done bs /\ slice_len bs = 60
  else updateGraph clock a = Panic IndexOutOfRange.
Proof.
  intros Hget. unfold updateGraph. rewrite Hget. cbn [outcome_bind].
  apply GetAll_length in Hget as [Hlen Hsize].
  pose proof max_len_int as [_ Hmax].
  change (make_slice sizeof_int 0 60) with (Done (replicate 60 0)).
  cbn [outcome_bind].
  assert (Forall (fun c => 0 <= c <= 0) (replicate 60 0)) as Hall
    by (apply Forall_replicate; lia).
  destruct (forallb _ l) eqn:E.
  - destruct (bucket_loop_counts (unix_millis clock) l (replicate 60 0) 0)
      as (bs & -> & Hl & _); try done; try lia.
    by exists bs.
  - apply (bucket_loop_unsafe _ _ _ 0); try done; lia.
Qed.

(** X15.  One refresh of a running tracker.  If the histogram can place
    every buffered entry at the third reading of the clock, the refresh
    returns: it shows the current rate of the first reading, the peak
    becomes the larger of the old peak and that rate and is what is shown,
    60 buckets are shown, and the buffer is as before.  Otherwise the whole
    refresh panics with an index out of range and returns nothing. *)
Theorem refresh_outcome now1 now2 now3 a :
  tracker_ok a -> running a = true ->
  if forallb (bucket_safe (unix_millis now3)) (contents (actions a))
  then
    exists a' d,
      updateGUI now1 now2 now3 a = Done (a', Some d) /\
      actions a' = actions a /\
      calculateCurrentAPM now1 a = Done (shown_current d) /\
      peakAPM a' = Z.max (peakAPM a) (shown_current d) /\
      shown_peak d = peakAPM a' /\
      slice_len (shown_buckets d) = 60
  else updateGUI now1 now2 now3 a = Panic IndexOutOfRange.
Proof.
  intros Hok Hrun. pose proof Hok as [Hwf Hcap Hpk].
  unfold updateGUI. rewrite Hrun. cbn [negb].
  destruct (calculateCurrentAPM_bounds now1 a Hwf) as (r & Hr & Hb).
  rewrite Hr. cbn [outcome_bind].
  rewrite calculateAverageAPM_done by done. cbn [outcome_bind].
  assert (0 <= r <= 3600) as Hr' by (destruct Hwf; lia).
  rewrite peak_update_max by lia.
  match goal with
  | |- context [updateGraph now3 ?x] =>
      pose proof (updateGraph_outcome now3 x (contents (actions a))
                    (GetAll_contents _ Hwf)) as Hg
  end.
  destruct (forallb _ (contents (actions a))).
  - destruct Hg as (bs & -> & Hl). cbn [outcome_bind].
    eexists _, _. split; [done|]. by split_and!.
  - by rewrite Hg.
Qed.

Lemma refresh_outcome_witness :
  exists r,
    session 0 [Action 1000000000; Action 2000000000] = Done r /\
    tracker_ok (fst r) /\ running (fst r) = true /\
    if forallb (bucket_safe (unix_millis 61000000000))
               (contents (actions (fst r)))
    then
      exists a' d,
        updateGUI 61000000000 61000000000 61000000000 (fst r)
        = Done (a', Some d) /\
        actions a' = actions (fst r) /\
        calculateCurrentAPM 61000000000 (fst r) = Done (shown_current d) /\
        peakAPM a' = Z.max (peakAPM (fst r)) (shown_current d) /\
        shown_peak d = peakAPM a' /\
        slice_len (shown_buckets d) = 60
    else updateGUI 61000000000 61000000000 61000000000 (fst r)
         = Panic IndexOutOfRange.
Proof.
  destruct (session 0 [Action 1000000000; Action 2000000000])
    as [r|] eqn:E; [|vm_compute in E; discriminate].
  assert (tracker_ok (fst r)) as Hok by (by destruct (session_frame _ _ _ E)).
  assert (running (fst r) = true) as Hrun
    by (vm_compute in E; by injection E as <-).
  exists r. split; [done|]. split; [exact Hok|]. split; [exact Hrun|].
  exact (refresh_outcome 61000000000 61000000000 61000000000 (fst r)
           Hok Hrun).
Defined.

Lemma updateGUI_display now1 now2 now3 a a' d :
  tracker_ok a -> updateGUI now1 now2 now3 a = Done (a', Some d) ->
  0 <= shown_current d <= shown_peak d /\ shown_peak d = peakAPM a' /\
  slice_len (shown_buckets d) = 60.
Proof.
  intros Hok H. pose proof Hok as [Hwf Hcap Hpk].
  unfold updateGUI in H. destruct (running a); cbn [negb] in H; [|done].
  destruct (calculateCurrentAPM_bounds now1 a Hwf) as (r & Hr & Hb).
  rewrite Hr in H. cbn [outcome_bind] in H.
  rewrite calculateAverageAPM_done in H by done. cbn [outcome_bind] in H.
  assert (0 <= r <= 3600) as Hr' by (destruct Hwf; lia).
  rewrite peak_update_max in H by lia.
  match type of H with
  | context [updateGraph now3 ?x] =>
      pose proof (updateGraph_outcome now3 x (contents (actions a))
                    (GetAll_contents _ Hwf)) as Hg
  end.
  destruct (forallb _ (contents (actions a))).
  - destruct Hg as (bs & Hbs & Hl). rewrite Hbs in H.
    cbn [outcome_bind] in H. injection H as <- <-. simpl.
    split_and!; [lia|lia|done|done].
  - rewrite Hg in H. done.
Qed.

Lemma run_displays es a a' obs :
  tracker_ok a -> run es a = Done (a', obs) ->
  Forall (fun d => 0 <= shown_current d <= shown_peak d /\
                   peakAPM a <= shown_peak d <= peakAPM a' /\
                   slice_len (shown_buckets d) = 60) obs /\
  StronglySorted Z.le (map shown_peak obs).
Proof.
  revert a a' obs. induction es as [|e es IH]; intros a a' obs Hok; simpl.
  - intros [= <- <-]. split; constructor.
  - destruct (step e a) as [[a1 od]|] eqn:Hs; simpl; [|done].
    destruct (run es a1) as [[a2 obs2]|] eqn:Hr; simpl; [|done].
    intros [= <- <-].
    destruct (step_spec _ _ _ _ Hok Hs) as (Hok1 & Hp1).
    destruct (run_spec _ _ _ _ Hok1 Hr) as (_ & Hp2).
    destruct (IH _ _ _ Hok1 Hr) as (Hall & Hsorted).
    assert (peakAPM a <= peakAPM a1 <= peakAPM a2) as Hmono by lia.
    assert (Forall (fun d => 0 <= shown_current d <= shown_peak d /\
                             peakAPM a <= shown_peak d <= peakAPM a2 /\
                             slice_len (shown_buckets d) = 60) obs2) as Hall'.
    { eapply Forall_impl; [exact Hall|]. simpl. intros d Hd. lia. }
    destruct od as [d|]; simpl; [|done].
    destruct e as [now|now1 now2 now3|]; simpl in Hs.
    + destruct (onAction now a); simpl in Hs; congruence.
    + destruct (updateGUI_display _ _ _ _ _ _ Hok Hs) as (Hc & Hpk & Hl).
      split.
      * constructor; [lia|done].
      * constructor; [done|].
        apply Forall_fmap. eapply Forall_impl; [exact Hall|].
        simpl. intros d' Hd'. lia.
    + congruence.
Qed.

(** X16.  What the refreshes of a session show.  In every refresh the
    shown rate lies between 0 and the shown peak, the shown peak is at
    most 3600 and at most the final peak, and 60 buckets are shown; and
    from one refresh to the next the shown peak never goes down. *)
Theorem session_displays start es r :
  session start es = Done r ->
  Forall (fun d => 0 <= shown_current d <= shown_peak d /\
                   shown_peak d <= peakAPM (fst r) /\
                   shown_peak d <= 3600 /\
                   slice_len (shown_buckets d) = 60) (snd r) /\
  Sorted Z.le (map shown_peak (snd r)).
Proof.
  intros H. destruct (session_spec _ _ _ H) as ([_ _ Hpk] & _).
  unfold session in H.
  destruct (NewAPMTracker_spec start) as (a & Ha & Hok & _).
  rewrite Ha in H. simpl in H. destruct r as [a' obs].
  destruct (run_displays _ _ _ _ Hok H) as (Hall & Hs). simpl in *.
  split; [|by apply StronglySorted_Sorted].
  eapply Forall_impl; [exact Hall|]. simpl. intros d Hd. lia.
Qed.

Lemma session_displays_witness :
  exists r,
    session 0 [Action 1000000000; Refresh 2000000000 2000000000 2000000000;
               Action 3000000000; Refresh 4000000000 4000000000 4000000000]
    = Done r /\
    Forall (fun d => 0 <= shown_current d <= shown_peak d /\
                     shown_peak d <= peakAPM (fst r) /\
                     shown_peak d <= 3600 /\
                     slice_len (shown_buckets d) = 60) (snd r) /\
    Sorted Z.le (map shown_peak (snd r)).
Proof.
  destruct (session 0 [Action 1000000000;
                       Refresh 2000000000 2000000000 2000000000;
                       Action 3000000000;
                       Refresh 4000000000 4000000000 4000000000])
    as [r|] eqn:E; [|vm_compute in E; discriminate].
  exists r. split; [done|].
  exact (session_displays 0 _ r E).
Defined.

(** ** The input loop *)

Lemma inputLoop_spec KeyDown MouseDown evChan : forall a,
  tracker_ok a ->
  exists a',
    inputLoop KeyDown MouseDown evChan a = Done a' /\ tracker_ok a' /\
    contents (actions a')
    = keep_last 3600 (contents (actions a) ++ recorded KeyDown MouseDown evChan) /\
    peakAPM a' = peakAPM a /\ running a' = running a /\
    startTime a' = startTime a.
Proof.
  induction evChan as [|ev rest IH]; intros a Hok; simpl.
  - exists a. split_and!; try done.
    unfold recorded. simpl. rewrite app_nil_r, keep_last_all; [done|].
    destruct Hok as [Hwf ? ?]. rewrite contents_length by done.
    destruct Hwf. lia.
  - unfold recorded. simpl.
    destruct ((fst ev =? KeyDown) || (fst ev =? MouseDown)) eqn:E.
    + destruct (onAction_spec (snd ev) a (ok_wf _ Hok))
        as (a1 & -> & Hwf1 & Hc1 & Hk1 & Hst1 & Hp1 & Hr1). simpl.
      assert (tracker_ok a1) as Hok1
        by (destruct Hok; split; [done|congruence|lia]).
      destruct (IH a1 Hok1) as (a' & -> & Hok' & Hk & Hp & Hr & Hst).
      exists a'. split_and!; try done; try congruence.
      rewrite Hk, Hk1, (ok_capacity _ Hok), keep_last_app, <- app_assoc.
      done.
    + destruct (IH a Hok) as (a' & -> & Hok' & Hk & Hp & Hr & Hst).
      exists a'. by split_and!.
Qed.

(** X17.  The input loop records the key-down and mouse-down events and
    nothing else.  Started on a new tracker it does not panic, however
    many events come; the snapshot is then the timestamps of the last 3600
    key-down and mouse-down events in their order, events of any other
    kind leave no trace, and the peak and the running flag are not
    touched. *)
Theorem inputLoop_records_downs KeyDown MouseDown evChan start a :
  NewAPMTracker start = Done a ->
  exists a',
    inputLoop KeyDown MouseDown evChan a = Done a' /\
    GetAll (actions a')
    = Done (keep_last 3600 (recorded KeyDown MouseDown evChan)) /\
    peakAPM a' = 0 /\ running a' = true.
Proof.
  intros Hnew.
  destruct (NewAPMTracker_spec start) as (a0 & Ha & Hok & Hp & Hr & _ & He).
  assert (a0 = a) as -> by congruence.
  destruct (inputLoop_spec KeyDown MouseDown evChan a Hok)
    as (a' & Hrun & [Hwf' _ _] & Hk & Hp' & Hr' & _).
  exists a'. split_and!; [done| |congruence..].
  rewrite GetAll_contents by done. by rewrite Hk, He.
Qed.

Lemma inputLoop_records_downs_witness :
  exists a a',
    NewAPMTracker 0 = Done a /\
    inputLoop 3 8 [(3, 1000000000); (5, 1100000000); (9, 1200000000);
                   (8, 2000000000)] a = Done a' /\
    GetAll (actions a')
    = Done (keep_last 3600
              (recorded 3 8 [(3, 1000000000); (5, 1100000000);
                             (9, 1200000000); (8, 2000000000)])) /\
    peakAPM a' = 0 /\ running a' = true.
Proof.
  destruct (NewAPMTracker 0) as [a|] eqn:E; [|vm_compute in E; discriminate].
  destruct (inputLoop_records_downs 3 8
              [(3, 1000000000); (5, 1100000000); (9, 1200000000);
               (8, 2000000000)] 0 a E) as (a' & H).
  exists a, a'. split; [done|]. exact H.
Defined.

Lemma run_no_refresh es : forall a,
  tracker_ok a -> forallb (fun e => negb (is_refresh e)) es = true ->
  exists a', run es a = Done (a', []) /\ peakAPM a' = peakAPM a.
Proof.
  induction es as [|e es IH]; intros a Hok Hno; simpl; [by eexists|].
  simpl in Hno. apply andb_prop in Hno as [He Hes].
  assert (exists a1, step e a = Done (a1, None) /\ tracker_ok a1 /\
                     peakAPM a1 = peakAPM a) as (a1 & Hs & Hok1 & Hp1).
  { destruct e as [now|n1 n2 n3|]; simpl in *; [|done|].
    - destruct (onAction_spec now a (ok_wf _ Hok))
        as (a1 & -> & Hwf1 & Hc1 & _ & _ & Hp1 & _). simpl.
      exists a1. split_and!; [done| |done].
      destruct Hok. split; [done|congruence|lia].
    - eexists. split_and!; [done| |done]. destruct Hok. by split. }
  rewrite Hs. simpl.
  destruct (IH a1 Hok1 Hes) as (a' & -> & Hp). simpl.
  exists a'. split; [done|congruence].
Qed.

(** X18.  The peak is moved by refreshes only.  A session without a
    refresh, whatever its actions and however many, runs without panic,
    shows nothing, and leaves the peak at 0: actions alone are recorded but
    never reach the peak. *)
Theorem session_without_refresh start es :
  forallb (fun e => negb (is_refresh e)) es = true ->
  exists r,
    session start es = Done r /\ snd r = [] /\ peakAPM (fst r) = 0 /\
    GetAll (actions (fst r))
    = Done (keep_last 3600 (map unix_millis (action_clocks es))).
Proof.
  intros Hno. unfold session.
  destruct (NewAPMTracker_spec start) as (a & Ha & Hok & Hp & _ & _ & He).
  rewrite Ha. simpl.
  destruct (run_no_refresh es a Hok Hno) as (a' & Hrun & Hp').
  exists (a', []). rewrite Hrun. split_and!; [done|done|simpl; congruence|].
  destruct (run_frame _ _ _ _ Hok Hrun) as ([Hwf _ _] & _ & _ & Hk).
  simpl. rewrite GetAll_contents by done. by rewrite Hk, He.
Qed.

Lemma session_without_refresh_witness :
  forallb (fun e => negb (is_refresh e))
          [Action 1000000000; Action 1000000001; Closing; Action 1000000002]
  = true /\
  exists r,
    session 0 [Action 1000000000; Action 1000000001; Closing;
               Action 1000000002] = Done r /\
    snd r = [] /\ peakAPM (fst r) = 0 /\
    GetAll (actions (fst r))
    = Done (keep_last 3600
              (map unix_millis
                 (action_clocks [Action 1000000000; Action 1000000001;
                                 Closing; Action 1000000002]))).
Proof.
  split; [reflexivity|].
  apply (session_without_refresh 0); reflexivity.
Defined.
